(** * lala-core: variable environment, diagnostics, Boolean and integer
      pre-universes, dual adapter

    Shallow embedding of the C++ sources:
    - [Logic]       the pieces of [ast.hpp] the other files rely on;
    - [Diagnostics] [IError], [IResult] (logic/iresult.hpp);
    - [Env]         [Variable], [VarEnv] (lala/logic/env.hpp);
    - [LegacyEnv]   the older [VarEnv] (logic/env.hpp), whose redeclaration
                    policy differs;
    - [PreB], [PreBInc], [ZUniverse], [DualAdapter] the value algebras.

    Conventions.  [int] values that can be negative ([AType], the fields of
    [AVar]) are [Z]; sizes and positions of vectors are [nat] (no vector of
    the model comes near 2^31 elements, so the [size_t] to [int]
    conversions of the source are the identity).  A member function that
    mutates [*this] takes the environment and returns the new one.  A run
    that does not return normally (a failed [assert], a loop that exhausts
    memory) is [None]. *)

From Stdlib Require Import ZArith String List Lia DecimalString.
From stdpp Require Import base option list strings.
Import ListNotations.
Local Open Scope Z_scope.
Set Warnings "-register-all".

(** ** Logic: abstract types, abstract variables, sorts, formulas *)
Module Logic.

(** [AType] is [int]; [UNTYPED] is the reserved value. *)
Definition AType := Z.
Definition UNTYPED : AType := -1.

(** Modelled from the spec: [ast.hpp] is not part of the sources at hand.
    A handle is the pair [(domain_id, slot)]; the reserved sentinel marks
    "no domain yet". *)
Record AVar := mkAVar { aty : AType; vid : Z }.

Definition is_untyped (av : AVar) : bool := bool_decide (aty av = UNTYPED).

(** The element a [resize] of a vector of [AVar] pads with. *)
Definition AVar_default : AVar := mkAVar UNTYPED (-1).

#[global] Instance AVar_eq_dec : EqDecision AVar.
Proof. solve_decision. Defined.

(** Modelled from the spec: a sort is an equality-comparable type
    descriptor (Boolean, Integer, ...). *)
Inductive Sort := Bool | Int | Real | SetOf (sub : Sort).

#[global] Instance Sort_eq_dec : EqDecision Sort.
Proof. solve_decision. Defined.

Inductive Sig := AND | OR | IMPLY | EQUIV | XOR | NOT | EQ | NEQ | LEQ | GEQ | LT | GT.

(** Modelled from the spec: a formula exposes a discriminant among
    existential declaration [E], name occurrence [LV], resolved-handle
    occurrence [V], constants [B], [Z] and connective application [Seq],
    and carries its abstract type ([f.type()]). *)
Inductive Formula :=
| E (ty : AType) (name : string) (sort : Sort)
| LV (ty : AType) (name : string)
| V (ty : AType) (av : AVar)
| B (ty : AType) (b : bool)
| Zc (ty : AType) (z : Z)
| Seq (ty : AType) (sig : Sig) (children : list Formula).

Definition type (f : Formula) : AType :=
  match f with
  | E ty _ _ | LV ty _ | V ty _ | B ty _ | Zc ty _ | Seq ty _ _ => ty
  end.

(** [battery::string::from_int]. *)
Definition from_int (z : Z) : string := NilZero.string_of_int (Z.to_int z).

End Logic.
Export Logic.

(** ** Diagnostics: logic/iresult.hpp *)
Module Diagnostics.

(** [IError]: the constructor takes [fatal] (read back by [print]), the
    name of the abstract domain, the description, the formula and the
    abstract type ([UNTYPED] by default); sub-errors start empty. *)
Inductive IError :=
  mkIError (fatal : bool) (ad_name description : string)
           (uninterpretable_formula : Formula) (aty : AType)
           (suberrors : list IError).

Definition IError_make (fatal : bool) (ad_name description : string) (f : Formula) : IError :=
  mkIError fatal ad_name description f UNTYPED [].

Definition add_suberror (e sub : IError) : IError :=
  match e with
  | mkIError fa n d f a subs => mkIError fa n d f a (subs ++ [sub])
  end.

(** [IResult<T, F>]: a variant (alternative 0 the value, alternative 1 the
    error) and the warnings. *)
Record IResult (T : Type) := mkIResult {
  result : T + IError;
  warnings : list IError
}.
Arguments mkIResult {T} _ _.
Arguments result {T} _.
Arguments warnings {T} _.

(** [IResult(T&& data)] and [IResult(error_type&& error)]. *)
Definition IResult_ok {T} (data : T) : IResult T := mkIResult (inl data) [].
Definition IResult_error {T} (error : IError) : IResult T := mkIResult (inr error) [].

Definition push_warning {T} (r : IResult T) (w : IError) : IResult T :=
  mkIResult (result r) (warnings r ++ [w]).

Definition is_ok {T} (r : IResult T) : bool :=
  match result r with inl _ => true | inr _ => false end.

Definition value {T} (r : IResult T) : option T :=
  match result r with inl v => Some v | inr _ => None end.

Definition error {T} (r : IResult T) : option IError :=
  match result r with inl _ => None | inr e => Some e end.

(** [map_result]: [T(std::move(get<0>(other)))] is the conversion [conv]
    from [U] to [T]. *)
Definition map_result {U T} (conv : U -> T) (other : U + IError) : T + IError :=
  match other with
  | inl u => inl (conv u)
  | inr e => inr e
  end.

(** The converting constructor [IResult(IResult<U, F>&& map)]. *)
Definition IResult_convert {U T} (conv : U -> T) (map : IResult U) : IResult T :=
  mkIResult (map_result conv (result map)) (warnings map).

(** The member [map(U&& data2) &&] has no model: it hands the named
    parameter [data2], an lvalue, to the constructor [IResult(T&&)], so no
    instantiation of it is well-formed and no run of the program goes
    through it.  Results are taken from one value type to another by the
    converting constructor above. *)

End Diagnostics.
Export Diagnostics.

(** ** Env: lala/logic/env.hpp *)
Module Env.

(** [Variable<Allocator>]. *)
Record variable_type := mkVariable {
  name : string;
  sort : Sort;
  avars : list AVar
}.

(** [Variable::avar_of]: the first abstract variable of type [a]. *)
Fixpoint avar_of_list (avs : list AVar) (a : AType) : option AVar :=
  match avs with
  | [] => None
  | av :: rest => if decide (aty av = a) then Some av else avar_of_list rest a
  end.

Definition avar_of (v : variable_type) (a : AType) : option AVar :=
  avar_of_list (avars v) a.

Record VarEnv := mkVarEnv {
  lvars : list variable_type;
  avar2lvar : list (list nat)
}.

Definition empty : VarEnv := mkVarEnv [] [].

(** [name] of the class, used in diagnostics. *)
Definition ad_name : string := "VarEnv".

(** [extends_abstract_dom]: returns the new abstract type. *)
Definition extends_abstract_dom (e : VarEnv) : AType * VarEnv :=
  let e' := mkVarEnv (lvars e) (avar2lvar e ++ [[]]) in
  (Z.of_nat (length (avar2lvar e')) - 1, e').

(** The loop [while(aty >= avar2lvar.size()) extends_abstract_dom();]
    runs [aty + 1 - size] times when [0 <= aty]. *)
Fixpoint extends_abstract_doms_loop (n : nat) (e : VarEnv) : VarEnv :=
  match n with
  | O => e
  | S n' => extends_abstract_doms_loop n' (snd (extends_abstract_dom e))
  end.

(** [extends_abstract_doms]: [assert(aty != UNTYPED)]; any other negative
    [aty] is converted to a [size_t] above every size the vector can
    reach, so the loop never ends normally. *)
Definition extends_abstract_doms (a : AType) (e : VarEnv) : option VarEnv :=
  if decide (a < 0) then None
  else Some (extends_abstract_doms_loop (Z.to_nat (a + 1) - length (avar2lvar e)) e).

(** [lvar_index_of]: position of the first variable called [lv]. *)
Definition lvar_index_of (lv : string) (e : VarEnv) : option nat :=
  fst <$> list_find (fun v => name v = lv) (lvars e).

Definition variable_of (lv : string) (e : VarEnv) : option variable_type :=
  match lvar_index_of lv e with
  | Some r => lvars e !! r
  | None => None
  end.

(** [lvars[idx].avars.push_back(avar)] *)
Definition push_avar (idx : nat) (avar : AVar) (e : VarEnv) : VarEnv :=
  mkVarEnv (alter (fun v => mkVariable (name v) (sort v) (avars v ++ [avar])) idx (lvars e))
           (avar2lvar e).

(** [avar2lvar[aty].push_back(idx)] *)
Definition push_index (a : AType) (idx : nat) (e : VarEnv) : VarEnv :=
  mkVarEnv (lvars e) (alter (fun row => row ++ [idx]) (Z.to_nat a) (avar2lvar e)).

Definition extends_vars (a : AType) (nm : string) (so : Sort) (e : VarEnv)
  : option (AVar * VarEnv) :=
  e1 ← extends_abstract_doms a e;
  row ← avar2lvar e1 !! Z.to_nat a;
  let avar := mkAVar a (Z.of_nat (length row)) in
  match lvar_index_of nm e1 with
  | Some lvar_idx =>
      v ← lvars e1 !! lvar_idx;
      match avar_of v a with
      | Some av => Some (av, e1)
      | None => Some (avar, push_index a lvar_idx (push_avar lvar_idx avar e1))
      end
  | None =>
      let lvar_idx := length (lvars e1) in
      Some (avar, push_index a lvar_idx
                    (mkVarEnv (lvars e1 ++ [mkVariable nm so [avar]]) (avar2lvar e1)))
  end.

Definition iresult := IResult AVar.

Definition err_untyped (vname : string) (f : Formula) : IError :=
  IError_make true ad_name
    ("Untyped abstract type: variable `" +:+ vname +:+ "` has no abstract type.") f.

Definition err_sort_mismatch (vname : string) (f : Formula) : IError :=
  IError_make true ad_name
    ("Invalid redeclaration with different sort: variable `" +:+ vname
       +:+ "` has already been declared and the sort does not coincide.") f.

Definition err_undeclared_in_domain (vname : string) (f : Formula) : IError :=
  IError_make true ad_name
    ("Variable `" +:+ vname +:+ "` has not been declared in the abstract domain `"
       +:+ from_int (type f) +:+ "`.") f.

Definition err_ambiguous (vname : string) (f : Formula) : IError :=
  IError_make true ad_name
    ("Variable occurrence `" +:+ vname
       +:+ "` is untyped, but exists in multiple abstract domains.") f.

Definition err_undeclared (vname : string) (f : Formula) : IError :=
  IError_make true ad_name ("Undeclared variable `" +:+ vname +:+ "`.") f.

Definition err_undeclared_avar (av : AVar) (f : Formula) : IError :=
  IError_make true ad_name
    ("Undeclared abstract variable `" +:+ from_int (aty av) +:+ ", "
       +:+ from_int (vid av) +:+ "`.") f.

Definition err_unsupported (f : Formula) : IError :=
  IError_make true ad_name
    "Unsupported formula: `VarEnv` can only interpret quantifiers and occurrences of variables." f.

(** [interpret_existential], on a formula [f] that is [E ty vname so]. *)
Definition interpret_existential (f : Formula) (ty : AType) (vname : string) (so : Sort)
    (e : VarEnv) : option (iresult * VarEnv) :=
  if decide (ty = UNTYPED) then Some (IResult_error (err_untyped vname f), e)
  else
    match variable_of vname e with
    | Some var =>
        if decide (sort var <> so) then Some (IResult_error (err_sort_mismatch vname f), e)
        else '(av, e') ← extends_vars ty vname so e; Some (IResult_ok av, e')
    | None => '(av, e') ← extends_vars ty vname so e; Some (IResult_ok av, e')
    end.

(** [interpret_lv], on a formula [f] that is [LV ty vname]; it is [const]
    in the source, the environment is not changed. *)
Definition interpret_lv (f : Formula) (ty : AType) (vname : string) (e : VarEnv) : iresult :=
  match variable_of vname e with
  | Some var =>
      if decide (ty <> UNTYPED) then
        match avar_of var ty with
        | Some avar => IResult_ok avar
        | None => IResult_error (err_undeclared_in_domain vname f)
        end
      else
        match avars var with
        | [av0] => IResult_ok av0
        | _ => IResult_error (err_ambiguous vname f)
        end
  | None => IResult_error (err_undeclared vname f)
  end.

Definition num_abstract_doms (e : VarEnv) : nat := length (avar2lvar e).

Definition num_vars (e : VarEnv) : nat := length (lvars e).

(** [num_vars_in]: the test [aty >= avar2lvar.size()] compares as
    [size_t], so a negative [aty] is above every size. *)
Definition num_vars_in (a : AType) (e : VarEnv) : nat :=
  if decide (a < 0 \/ Z.of_nat (length (avar2lvar e)) <= a) then 0%nat
  else match avar2lvar e !! Z.to_nat a with
       | Some row => length row
       | None => 0%nat
       end.

(** [contains(AVar)] *)
Definition contains (av : AVar) (e : VarEnv) : bool :=
  if is_untyped av then false
  else
    bool_decide (0 <= aty av < Z.of_nat (length (avar2lvar e)))
    && match avar2lvar e !! Z.to_nat (aty av) with
       | Some row => bool_decide (0 <= vid av < Z.of_nat (length row))
       | None => false
       end.

Definition contains_name (lv : string) (e : VarEnv) : bool :=
  bool_decide (is_Some (variable_of lv e)).

(** [interpret] *)
Definition interpret (f : Formula) (e : VarEnv) : option (iresult * VarEnv) :=
  match f with
  | E ty vname so => interpret_existential f ty vname so e
  | LV ty vname => Some (interpret_lv f ty vname e, e)
  | V _ av =>
      if contains av e then Some (IResult_ok av, e)
      else Some (IResult_error (err_undeclared_avar av f), e)
  | _ => Some (IResult_error (err_unsupported f), e)
  end.

(** [operator[](AVar)], [name_of], [sort_of]; out of range is undefined
    in the source. *)
Definition at_avar (av : AVar) (e : VarEnv) : option variable_type :=
  row ← avar2lvar e !! Z.to_nat (aty av);
  i ← row !! Z.to_nat (vid av);
  lvars e !! i.

Definition name_of (av : AVar) (e : VarEnv) : option string := name <$> at_avar av e.
Definition sort_of (av : AVar) (e : VarEnv) : option Sort := sort <$> at_avar av e.

Record snapshot_type := mkSnapshot {
  lvars_snap : list nat;
  avar2lvar_snap : list nat
}.

Definition snapshot (e : VarEnv) : snapshot_type :=
  mkSnapshot ((fun v => length (avars v)) <$> lvars e)
             ((fun row => length row) <$> avar2lvar e).

(** [vector::resize(n)] truncates or pads with value-initialised elements:
    it is [resize n d] on lists. *)

(** [restore]: both [assert]s, then the two pop loops and the two resize
    loops.  After the first pop loop [lvars.size()] is the snapshot's
    size, so [snap.lvars_snap[i]] is in range. *)
Definition restore (snap : snapshot_type) (e : VarEnv) : option VarEnv :=
  if decide (length (lvars_snap snap) <= length (lvars e)
             /\ length (avar2lvar_snap snap) <= length (avar2lvar e))%nat
  then
    let lv := take (length (lvars_snap snap)) (lvars e) in
    let lv' := zip_with (fun v n => mkVariable (name v) (sort v) (resize n AVar_default (avars v)))
                        lv (lvars_snap snap) in
    let rows := take (length (avar2lvar_snap snap)) (avar2lvar e) in
    let rows' := zip_with (fun row n => resize n 0%nat row) rows (avar2lvar_snap snap) in
    Some (mkVarEnv lv' rows')
  else None.

(** *** Sequences of calls on one environment *)

(** The calls that declare: [interpret] and [extends_abstract_dom]. *)
Inductive call := Interpret (f : Formula) | NewDomain.

Definition do_call (c : call) (e : VarEnv) : option VarEnv :=
  match c with
  | Interpret f => snd <$> interpret f e
  | NewDomain => Some (snd (extends_abstract_dom e))
  end.

Fixpoint do_calls (cs : list call) (e : VarEnv) : option VarEnv :=
  match cs with
  | [] => Some e
  | c :: cs' => e' ← do_call c e; do_calls cs' e'
  end.

(** A client holds the snapshots it took, most recent first.  [Restore k]
    restores the [k]-th of them.  Used as an undo stack ([lifo = true]) the
    snapshots taken after the restored one are dropped; otherwise the
    client keeps them all and may restore any of them later. *)
Inductive op := Call (c : call) | Snapshot | Restore (k : nat).

Record session := mkSession { env : VarEnv; snaps : list snapshot_type }.

Definition init : session := mkSession empty [].

Definition step (lifo : bool) (o : op) (s : session) : option session :=
  match o with
  | Call c => e' ← do_call c (env s); Some (mkSession e' (snaps s))
  | Snapshot => Some (mkSession (env s) (snapshot (env s) :: snaps s))
  | Restore k =>
      snap ← snaps s !! k;
      e' ← restore snap (env s);
      Some (mkSession e' (if lifo then drop k (snaps s) else snaps s))
  end.

Fixpoint run (lifo : bool) (ops : list op) (s : session) : option session :=
  match ops with
  | [] => Some s
  | o :: ops' => s' ← step lifo o s; run lifo ops' s'
  end.

(** Environments a client reaches from the empty one with the undo-stack
    discipline. *)
Definition reachable (e : VarEnv) : Prop :=
  exists ops s, run true ops init = Some s /\ env s = e.

(** The index invariant: the entry at [(d, slot)] is the position of a
    live record whose handle list contains the handle [(d, slot)]. *)
Definition index_inv (e : VarEnv) : Prop :=
  forall (d slot idx : nat) (row : list nat),
    avar2lvar e !! d = Some row -> row !! slot = Some idx ->
    exists v, lvars e !! idx = Some v
              /\ mkAVar (Z.of_nat d) (Z.of_nat slot) ∈ avars v.

(** Every handle of every record is typed by an existing domain. *)
Definition handles_inv (e : VarEnv) : Prop :=
  forall (i : nat) (v : variable_type) (av : AVar),
    lvars e !! i = Some v -> av ∈ avars v ->
    0 <= aty av < Z.of_nat (length (avar2lvar e)).

(** [e'] is [e] after declarations: records and rows are kept in place
    and only grow at their end. *)
Definition ext_var (v v' : variable_type) : Prop :=
  name v' = name v /\ sort v' = sort v /\ avars v `prefix_of` avars v'.

Definition ext (e e' : VarEnv) : Prop :=
  (forall i v, lvars e !! i = Some v -> exists v', lvars e' !! i = Some v' /\ ext_var v v')
  /\ (forall d row, avar2lvar e !! d = Some row ->
                    exists row', avar2lvar e' !! d = Some row' /\ row `prefix_of` row').

(** *** Notions used to reason about the environment *)

(** The record a name stands for: [v] is at position [i] of [lvars], is
    called [x], and no record before it is called [x]. *)
Definition first_record (x : string) (e : VarEnv) (i : nat) (v : variable_type) : Prop :=
  lvars e !! i = Some v
  /\ name v = x
  /\ forall j w, lvars e !! j = Some w -> (j < i)%nat -> name w <> x.

(** The handle a record owns in a domain: [h] is in the handle list of
    [v], its abstract type is [a], and no handle before it has type [a]. *)
Definition first_handle (a : AType) (v : variable_type) (h : AVar) : Prop :=
  exists k, avars v !! k = Some h
            /\ aty h = a
            /\ forall k' h', avars v !! k' = Some h' -> (k' < k)%nat -> aty h' <> a.

(** The environment after [extends_abstract_doms a]. *)
Definition grown (a : AType) (e : VarEnv) : VarEnv :=
  mkVarEnv (lvars e) (avar2lvar e ++ replicate (Z.to_nat (a + 1) - length (avar2lvar e)) []).
Arguments grown : simpl never.

(** [extends_vars] for [0 <= a], with the growth of the domains and the
    next slot of domain [a] made explicit. *)
Definition declared (a : AType) (nm : string) (so : Sort) (e : VarEnv) : option (AVar * VarEnv) :=
  let e1 := grown a e in
  let avar := mkAVar a (Z.of_nat (num_vars_in a e)) in
  match lvar_index_of nm e with
  | Some i =>
      match lvars e !! i with
      | Some v =>
          match avar_of v a with
          | Some av => Some (av, e1)
          | None => Some (avar, push_index a i (push_avar i avar e1))
          end
      | None => None
      end
  | None =>
      Some (avar, push_index a (length (lvars e))
                    (mkVarEnv (lvars e ++ [mkVariable nm so [avar]]) (avar2lvar e1)))
  end.

Definition env_inv (e : VarEnv) : Prop := index_inv e /\ handles_inv e.

(** What a declaration keeps: the old content in place, and both
    invariants. *)
Definition preserved (e e' : VarEnv) : Prop :=
  ext e e' /\ (index_inv e -> index_inv e') /\ (handles_inv e -> handles_inv e').

(** The snapshots of an undo stack were taken in states that satisfied
    the invariants and that the current environment has grown from, each
    from the one below it. *)
Inductive stack_ok : VarEnv -> list snapshot_type -> Prop :=
| stack_nil e : stack_ok e []
| stack_cons e e0 st :
    env_inv e0 -> ext e0 e -> stack_ok e0 st -> stack_ok e (snapshot e0 :: st).

Definition session_inv (s : session) : Prop :=
  env_inv (env s) /\ stack_ok (env s) (snaps s).

(** *** Sample environments and runs *)

(** [x : Bool] declared in domain 0. *)
Definition one_var : VarEnv := mkVarEnv [mkVariable "x" Bool [mkAVar 0 0]] [[0%nat]].

(** [x : Bool] declared in domains 3 and 5. *)
Definition two_handles : VarEnv :=
  mkVarEnv [mkVariable "x" Bool [mkAVar 3 0; mkAVar 5 0]] [[]; []; []; [0]; []; [0]]%nat.

(** Two records called [x]; the first has two handles in domain 3 and one
    in domain 5, the second one handle in domain 5. *)
Definition shadowed : VarEnv :=
  mkVarEnv [mkVariable "x" Bool [mkAVar 3 0; mkAVar 3 1; mkAVar 5 0];
            mkVariable "x" Int [mkAVar 5 1]]
           [[]; []; []; [0; 0]; []; [0; 1]]%nat.

(** A client that restores a snapshot taken in a state it has since left:
    snapshot, declare [x] in 0, snapshot, back to the first snapshot,
    declare [y] in 1 then in 0, and restore the second snapshot. *)
Definition stale_ops : list op :=
  [Snapshot; Call (Interpret (E 0 "x" Bool)); Snapshot; Restore 1;
   Call (Interpret (E 1 "y" Bool)); Call (Interpret (E 0 "y" Bool)); Restore 0].

Definition stale_env : VarEnv :=
  mkVarEnv [mkVariable "y" Bool [mkAVar 1 0]] [[0%nat]].

(** *** Further notions: what declarations alone can build *)

(** Environments built from the empty one by declarations only. *)
Definition decl_reachable (e : VarEnv) : Prop :=
  exists cs, do_calls cs empty = Some e.

(** An undo stack whose snapshots were taken in states satisfying [P]
    that the current environment has grown from. *)
Inductive stack_of (P : VarEnv -> Prop) : VarEnv -> list snapshot_type -> Prop :=
| stack_of_nil e : stack_of P e []
| stack_of_cons e e0 st :
    P e0 -> ext e0 e -> stack_of P e0 st -> stack_of P e (snapshot e0 :: st).

(** The three elementary changes a declaration is made of: the domains
    grow up to [a]; a known record receives a handle in a domain where it
    has none; a record is created for a name that has none. *)
Inductive change : VarEnv -> VarEnv -> Prop :=
| change_grow a e :
    0 <= a -> change e (grown a e)
| change_handle a i v row e :
    0 <= a -> lvars e !! i = Some v -> avar_of v a = None ->
    avar2lvar e !! Z.to_nat a = Some row ->
    change e (push_index a i (push_avar i (mkAVar a (Z.of_nat (length row))) e))
| change_record a nm so row e :
    0 <= a -> lvar_index_of nm e = None ->
    avar2lvar e !! Z.to_nat a = Some row ->
    change e (push_index a (length (lvars e))
                (mkVarEnv (lvars e ++ [mkVariable nm so [mkAVar a (Z.of_nat (length row))]])
                          (avar2lvar e))).

Inductive changes : VarEnv -> VarEnv -> Prop :=
| changes_nil e : changes e e
| changes_cons e1 e2 e3 : change e1 e2 -> changes e2 e3 -> changes e1 e3.

(** No two records share a name. *)
Definition names_unique (e : VarEnv) : Prop := NoDup (name <$> lvars e).

(** Every record has a handle, and at most one per domain. *)
Definition handles_wf (e : VarEnv) : Prop :=
  forall v, v ∈ lvars e -> avars v <> [] /\ NoDup (aty <$> avars v).

(** Every handle of the record at position [i] is indexed: the row of its
    domain holds [i] at its slot. *)
Definition handles_indexed (e : VarEnv) : Prop :=
  forall (i : nat) (v : variable_type) (av : AVar),
    lvars e !! i = Some v -> av ∈ avars v ->
    0 <= vid av
    /\ exists row, avar2lvar e !! Z.to_nat (aty av) = Some row
                   /\ row !! Z.to_nat (vid av) = Some i.

End Env.

(** ** LegacyEnv: logic/env.hpp, the older environment *)
Module LegacyEnv.

Inductive Approx := EXACT | UNDER | OVER.

Record Variable_t := mkVariable {
  name : string;
  sort : Sort;
  appx : Approx;
  avars : list AVar
}.

Record VarEnv := mkVarEnv {
  lvars : list Variable_t;
  avar2lvar : list (list nat)
}.

Definition empty : VarEnv := mkVarEnv [] [].

Definition extends_abstract_doms (a : AType) (e : VarEnv) : option VarEnv :=
  if decide (a < 0) then None
  else Some (mkVarEnv (lvars e)
               (avar2lvar e ++ replicate (Z.to_nat (a + 1) - length (avar2lvar e)) [])).

Definition extends_vars (a : AType) (nm : string) (so : Sort) (ap : Approx) (e : VarEnv)
  : option (AVar * VarEnv) :=
  e1 ← extends_abstract_doms a e;
  row ← avar2lvar e1 !! Z.to_nat a;
  let avar := mkAVar a (Z.of_nat (length row)) in
  Some (avar,
        mkVarEnv (lvars e1 ++ [mkVariable nm so ap [avar]])
                 (alter (fun r => r ++ [length (lvars e1)]) (Z.to_nat a) (avar2lvar e1))).

Definition variable_of (lv : string) (e : VarEnv) : option Variable_t :=
  snd <$> list_find (fun v => name v = lv) (lvars e).

Definition contains (lv : string) (e : VarEnv) : bool :=
  bool_decide (is_Some (variable_of lv e)).

Definition err_untyped (vname : string) (f : Formula) : IError :=
  IError_make true "VarEnv"
    ("Untyped abstract type: variable `" +:+ vname +:+ "` has no abstract type.") f.

Definition err_redeclaration (vname : string) (f : Formula) : IError :=
  IError_make true "VarEnv"
    ("Invalid redeclaration: variable `" +:+ vname +:+ "` has already been declared.") f.

(** [interpret_existential] on [f = E ty vname so] whose approximation is
    [ap]. *)
Definition interpret_existential (f : Formula) (ty : AType) (vname : string) (so : Sort)
    (ap : Approx) (e : VarEnv) : option (IResult AVar * VarEnv) :=
  if decide (ty = UNTYPED) then Some (IResult_error (err_untyped vname f), e)
  else if contains vname e then Some (IResult_error (err_redeclaration vname f), e)
  else '(av, e') ← extends_vars ty vname so ap e; Some (IResult_ok av, e').

Definition num_vars (e : VarEnv) : nat := length (lvars e).

(** [Variable::avar_of] *)
Fixpoint avar_of_list (avs : list AVar) (a : AType) : option AVar :=
  match avs with
  | [] => None
  | av :: rest => if decide (aty av = a) then Some av else avar_of_list rest a
  end.

Definition avar_of (v : Variable_t) (a : AType) : option AVar := avar_of_list (avars v) a.

Definition err_undeclared_in_domain (vname : string) (f : Formula) : IError :=
  IError_make true "VarEnv"
    ("Variable `" +:+ vname +:+ "` has not been declared in the abstract domain `"
       +:+ from_int (type f) +:+ "`.") f.

Definition err_ambiguous (vname : string) (f : Formula) : IError :=
  IError_make true "VarEnv"
    ("Variable occurrence `" +:+ vname
       +:+ "` is untyped, but exists in multiple abstract domains.") f.

Definition err_undeclared (vname : string) (f : Formula) : IError :=
  IError_make true "VarEnv" ("Undeclared variable `" +:+ vname +:+ "`.") f.

(** [interpret_lv], on [f = LV ty vname]. *)
Definition interpret_lv (f : Formula) (ty : AType) (vname : string) (e : VarEnv)
  : IResult AVar :=
  match variable_of vname e with
  | Some var =>
      if decide (ty <> UNTYPED) then
        match avar_of var ty with
        | Some avar => IResult_ok avar
        | None => IResult_error (err_undeclared_in_domain vname f)
        end
      else
        match avars var with
        | [av0] => IResult_ok av0
        | _ => IResult_error (err_ambiguous vname f)
        end
  | None => IResult_error (err_undeclared vname f)
  end.

(** A run of declarations [(name, sort, approximation, domain)] from
    left to right, whatever each of them returns. *)
Definition declare (d : AType * string * Sort * Approx) (e : VarEnv) : option VarEnv :=
  let '(ty, nm, so, ap) := d in
  snd <$> interpret_existential (E ty nm so) ty nm so ap e.

Fixpoint declare_all (ds : list (AType * string * Sort * Approx)) (e : VarEnv)
  : option VarEnv :=
  match ds with
  | [] => Some e
  | d :: ds' => e' ← declare d e; declare_all ds' e'
  end.

Definition reachable (e : VarEnv) : Prop := exists ds, declare_all ds empty = Some e.

(** What the legacy environment keeps: distinct names, and exactly one
    handle, in an existing domain, per record. *)
Definition legacy_inv (e : VarEnv) : Prop :=
  NoDup (name <$> lvars e)
  /\ forall v, v ∈ lvars e -> exists h, avars v = [h] /\ 0 <= aty h.

End LegacyEnv.

(** ** Pre-universes as an interface

    The universes are used through static members of the same names
    ([bot], [top], [join], [meet], [order], [strict_order], [next]); the
    class below is that shared signature.  [prev] is not part of it: the
    integer universes have none. *)
Module Universe.

Class PreUniverse (A : Type) := {
  in_universe : A -> Prop;
  bot : A;
  top : A;
  join : A -> A -> A;
  meet : A -> A -> A;
  order : A -> A -> bool;
  strict_order : A -> A -> bool;
  next : A -> A
}.

(** [y] covers [x]: strictly above [x] with nothing in between. *)
Definition covers {A} `{PreUniverse A} (x y : A) : Prop :=
  in_universe y /\ strict_order x y = true
  /\ forall z, in_universe z -> ~ (strict_order x z = true /\ strict_order z y = true).

(** [y] is the unique cover of [x]. *)
Definition unique_cover {A} `{PreUniverse A} (x y : A) : Prop :=
  covers x y /\ forall y', covers x y' -> y' = y.

(** [y] is the unique element that [x] covers. *)
Definition unique_covered {A} `{PreUniverse A} (x y : A) : Prop :=
  covers y x /\ forall y', covers y' x -> y' = y.

(** The contract of [next]: the unique cover of [x], or [x] itself at
    [top]. *)
Definition next_contract {A} `{PreUniverse A} : Prop :=
  forall x : A, in_universe x ->
    (x = top -> next x = x) /\ (x <> top -> unique_cover x (next x)).

(** The contract of a [prev] function [pv]: the unique element [x] covers,
    or [x] itself at [bot]. *)
Definition prev_contract {A} `{PreUniverse A} (pv : A -> A) : Prop :=
  forall x : A, in_universe x ->
    (x = bot -> pv x = x) /\ (x <> bot -> unique_covered x (pv x)).

(** The laws of a bounded lattice on the elements of the universe, with
    [order] and [strict_order] read off [join] and [meet]. *)
Definition lattice_laws {A} (U : PreUniverse A) : Prop :=
  (in_universe bot /\ in_universe top)
  /\ forall x y z : A, in_universe x -> in_universe y -> in_universe z ->
       (in_universe (join x y) /\ in_universe (meet x y))
       /\ (join x x = x /\ meet x x = x)
       /\ (join x y = join y x /\ meet x y = meet y x)
       /\ (join (join x y) z = join x (join y z) /\ meet (meet x y) z = meet x (meet y z))
       /\ (join x (meet x y) = x /\ meet x (join x y) = x)
       /\ (order bot x = true /\ order x top = true)
       /\ (order x y = true <-> join x y = y)
       /\ (order x y = true <-> meet x y = x)
       /\ (strict_order x y = true <-> order x y = true /\ x <> y)
       /\ (order x y = true \/ order y x = true).

End Universe.

(** ** Statements with early return

    [interpret_tell] works on two reference parameters ([tell] and
    [diagnostics]) and leaves through [return] in the middle of its body.
    A statement maps the store to either the store after it ([Next]) or
    the returned value with the store at that point ([Return]). *)
Module Stmt.

Record store := mkStore { tell : bool; diagnostics : IError }.

Inductive flow :=
| Next (s : store)
| Return (r : bool) (s : store).

Definition stmt := store -> flow.

Definition skip : stmt := Next.
Definition return_ (r : bool) : stmt := Return r.
Definition assign_tell (b : bool) : stmt := fun s => Next (mkStore b (diagnostics s)).

Definition seq (a b : stmt) : stmt :=
  fun s => match a s with
           | Next s' => b s'
           | Return r s' => Return r s'
           end.

Definition if_ (c : bool) (a b : stmt) : stmt := if c then a else b.

Declare Scope stmt_scope.
Notation "a ;; b" := (seq a b) (at level 100, b at level 200, right associativity) : stmt_scope.
Local Open Scope stmt_scope.

(** What a call gives back: the [bool] it returns and the two reference
    parameters.  A body that falls off its end has no return value. *)
Definition call (body : stmt) (s : store) : option (bool * store) :=
  match body s with
  | Return r s' => Some (r, s')
  | Next _ => None
  end.

(** Modelled from the spec: the diagnostics header (the type
    [IDiagnostics] and the macros [INTERPRETATION_ERROR],
    [RETURN_INTERPRETATION_ERROR]) is not part of the sources at hand.
    Diagnostics are the spec's errors with sub-errors ([IError]).  The two
    macro names are used side by side in [interpret_tell]:
    [INTERPRETATION_ERROR(MSG)] records the error in [diagnostics] (when
    [diagnose] is set) and goes on; [RETURN_INTERPRETATION_ERROR(MSG)]
    records it and returns [false]. *)
Definition INTERPRETATION_ERROR (diagnose : bool) (ad_name msg : string) (f : Formula) : stmt :=
  fun s =>
    Next (if diagnose
          then mkStore (tell s) (add_suberror (diagnostics s) (IError_make true ad_name msg f))
          else s).

Definition RETURN_INTERPRETATION_ERROR (diagnose : bool) (ad_name msg : string) (f : Formula) : stmt :=
  INTERPRETATION_ERROR diagnose ad_name msg f ;; return_ false.

End Stmt.

(** ** PreB: lala/universes/pre_b.hpp *)
Module PreB.
Import Stmt.
Local Open Scope stmt_scope.

Definition value_type := bool.

Definition name : string := "B".

Definition msg_false_overapproximated : string :=
  "The constant `false` would be overapproximated by the top element (which concretization gives {true, false}) in the `PreBD` domain.".

Definition msg_true_overapproximated : string :=
  "The constant `true` would be overapproximated by the top element (which concretization gives {true, false}) in the `PreB` domain.".

Definition msg_only_bool : string :=
  "Only constant of types `Bool` can be interpreted in a Boolean domain.".

(** The body of [interpret_tell], over the macro [err] standing at the two
    places where the source writes [INTERPRETATION_ERROR]. *)
Definition interpret_tell_body (err : string -> Formula -> stmt)
    (diagnose dualize : bool) (f : Formula) : stmt :=
  match f with
  | B _ b =>
      if_ dualize
          (if_ (negb b) (err msg_false_overapproximated f) skip)
          (if_ b (err msg_true_overapproximated f) skip) ;;
      assign_tell b ;;
      return_ true
  | _ => RETURN_INTERPRETATION_ERROR diagnose name msg_only_bool f
  end.

(** [interpret_tell<diagnose, F, dualize>(f, tell, diagnostics)] *)
Definition interpret_tell (diagnose dualize : bool) (f : Formula) (s : store)
  : option (bool * store) :=
  call (interpret_tell_body (INTERPRETATION_ERROR diagnose name) diagnose dualize f) s.

Definition interpret_ask := interpret_tell.

Definition bot : value_type := false.
Definition top : value_type := true.

(** [interpret_type]: [assert(f.is(F::E))], then the sort [cty] and the
    name [vname] are read from [f.exists()]; [k] is the store's [tell]. *)
Definition interpret_type (diagnose dualize : bool) (f : Formula) (s : store)
  : option (bool * store) :=
  match f with
  | E _ vname cty =>
      call (if_ (bool_decide (cty = Bool))
                (assign_tell (if dualize then top else bot) ;; return_ true)
                (RETURN_INTERPRETATION_ERROR diagnose name
                   ("The type of `" +:+ vname
                      +:+ "` can only be `Bool` when interpreted in Boolean domains.") f)) s
  | _ => None
  end.

Definition join (x y : value_type) : value_type := x || y.
Definition meet (x y : value_type) : value_type := x && y.
Definition order (x y : value_type) : bool := negb x || y.
Definition strict_order (x y : value_type) : bool := negb x && y.
Definition next (x : value_type) : value_type := true.
Definition prev (x : value_type) : value_type := false.

Definition is_supported_fun (sig : Sig) : bool :=
  match sig with
  | AND | OR | IMPLY | EQUIV | XOR | EQ | NEQ => true
  | _ => false
  end.

Definition is_order_preserving (sig : Sig) : bool :=
  match sig with
  | AND | OR | IMPLY | EQUIV | XOR | EQ | NEQ => true
  | _ => false
  end.

(** [fun<sig, dualize>(x, y)]; the [static_assert] rules the other
    signatures out. *)
Definition fun_ (sig : Sig) (dualize : bool) (x y : value_type) : option value_type :=
  match sig with
  | AND => Some (if dualize then x || y else x && y)
  | OR => Some (if dualize then x && y else x || y)
  | IMPLY => Some (if dualize then negb y || x else negb x || y)
  | EQUIV => Some (Bool.eqb x y)
  | XOR => Some (negb (Bool.eqb x y))
  | _ => None
  end.

Definition universe : Universe.PreUniverse value_type := {|
  Universe.in_universe := fun _ => True;
  Universe.bot := bot; Universe.top := top;
  Universe.join := join; Universe.meet := meet;
  Universe.order := order; Universe.strict_order := strict_order;
  Universe.next := next
|}.

End PreB.

(** ** PreBInc: pre_binc.hpp, Booleans progressing from false to true *)
Module PreBInc.

Definition value_type := bool.
Definition bot : value_type := false.
Definition top : value_type := true.
Definition join (x y : value_type) : value_type := x || y.
Definition meet (x y : value_type) : value_type := x && y.
Definition order (x y : value_type) : bool := negb x || y.
Definition strict_order (x y : value_type) : bool := negb x && y.
Definition has_unique_next (x : value_type) : bool := true.
Definition has_unique_prev (x : value_type) : bool := true.
Definition next (x : value_type) : value_type := true.
Definition prev (x : value_type) : value_type := false.

Definition universe : Universe.PreUniverse value_type := {|
  Universe.in_universe := fun _ => True;
  Universe.bot := bot; Universe.top := top;
  Universe.join := join; Universe.meet := meet;
  Universe.order := order; Universe.strict_order := strict_order;
  Universe.next := next
|}.

End PreBInc.

(** ** ZUniverse: z.hpp, increasing and decreasing integers *)
Module ZUniverse.

Inductive Sign := SNEG | SPOS | SIGNED | BOUNDED.

(** [Limits<VT>] comes from a header that is not part of the sources at
    hand: its two bounds are taken as they are.  [int32_limits] and
    [bool_limits] are the instances for [int] and [bool]. *)
Record Limits := mkLimits { limits_bot : Z; limits_top : Z }.

Definition int32_limits : Limits := mkLimits (- 2 ^ 31) (2 ^ 31 - 1).
Definition bool_limits : Limits := mkLimits 0 1.

Section Universes.
Variable L : Limits.
Variable sign : Sign.

(** [ZIncUniverse<VT, sign>]; [ValueType{}] is zero. *)
Definition inc_bot : Z :=
  match sign with SPOS => 0 | _ => limits_bot L end.

Definition inc_top : Z :=
  match sign with SNEG => 0 | _ => limits_top L end.

Definition inc_next (i : Z) : Z :=
  if bool_decide (i = inc_top)
     || (bool_decide (i = inc_bot)
         && match sign with SIGNED | SNEG => true | _ => false end)
  then i
  else i + 1.

Definition inc_join (x y : Z) : Z := Z.max x y.
Definition inc_meet (x y : Z) : Z := Z.min x y.
Definition inc_order (x y : Z) : bool := x <=? y.
Definition inc_strict_order (x y : Z) : bool := x <? y.

(** [ZDecUniverse<VT, sign>] *)
Definition dec_bot : Z :=
  match sign with SNEG => 0 | _ => limits_top L end.

Definition dec_top : Z :=
  match sign with SPOS => 0 | _ => limits_bot L end.

Definition dec_next (i : Z) : Z :=
  if bool_decide (i = dec_top)
     || (bool_decide (i = dec_bot)
         && match sign with SIGNED | SPOS => true | _ => false end)
  then i
  else i - 1.

Definition dec_join (x y : Z) : Z := Z.min x y.
Definition dec_meet (x y : Z) : Z := Z.max x y.
Definition dec_order (x y : Z) : bool := x >=? y.
Definition dec_strict_order (x y : Z) : bool := x >? y.

(** The guards of [next]: where [inc_next] and [dec_next] stay put. *)
Definition inc_stays (x : Z) : bool :=
  bool_decide (x = inc_top)
  || (bool_decide (x = inc_bot)
      && match sign with SIGNED | SNEG => true | _ => false end).

Definition dec_stays (x : Z) : bool :=
  bool_decide (x = dec_top)
  || (bool_decide (x = dec_bot)
      && match sign with SIGNED | SPOS => true | _ => false end).

(** The elements are the values from [bot] to [top]. *)
Definition inc_universe : Universe.PreUniverse Z := {|
  Universe.in_universe := fun x => inc_bot <= x <= inc_top;
  Universe.bot := inc_bot; Universe.top := inc_top;
  Universe.join := inc_join; Universe.meet := inc_meet;
  Universe.order := inc_order; Universe.strict_order := inc_strict_order;
  Universe.next := inc_next
|}.

Definition dec_universe : Universe.PreUniverse Z := {|
  Universe.in_universe := fun x => dec_top <= x <= dec_bot;
  Universe.bot := dec_bot; Universe.top := dec_top;
  Universe.join := dec_join; Universe.meet := dec_meet;
  Universe.order := dec_order; Universe.strict_order := dec_strict_order;
  Universe.next := dec_next
|}.

End Universes.

(** [BInc = ZTotalOrder<ZIncUniverse<bool, BOUNDED>>] *)
Definition BInc_universe : Universe.PreUniverse Z := inc_universe bool_limits BOUNDED.

End ZUniverse.

(** ** ZTotalOrder: z.hpp, the totally ordered integer lattices *)
Module ZTotalOrder.
Import ZUniverse.

(** Which universe the lattice is built on: [ZIncUniverse] or
    [ZDecUniverse]. *)
Inductive direction := Inc | Dec.

Definition dual_direction (dir : direction) : direction :=
  match dir with Inc => Dec | Dec => Inc end.

Section Order.
Variable L : Limits.
Variable dir : direction.
Variable sign : Sign.

Definition U_bot : Z := match dir with Inc => inc_bot L sign | Dec => dec_bot L sign end.
Definition U_top : Z := match dir with Inc => inc_top L sign | Dec => dec_top L sign end.
Definition U_join (x y : Z) : Z := match dir with Inc => inc_join x y | Dec => dec_join x y end.
Definition U_meet (x y : Z) : Z := match dir with Inc => inc_meet x y | Dec => dec_meet x y end.
Definition U_order (x y : Z) : bool :=
  match dir with Inc => inc_order x y | Dec => dec_order x y end.
Definition U_strict_order (x y : Z) : bool :=
  match dir with Inc => inc_strict_order x y | Dec => dec_strict_order x y end.
Definition U_next (x : Z) : Z :=
  match dir with Inc => inc_next L sign x | Dec => dec_next L sign x end.

(** [ZIncUniverse::check] and [ZDecUniverse::check]: the conjunction each
    of them asserts; nothing is asserted for [BOUNDED]. *)
Definition U_check (i : Z) : bool :=
  match dir, sign with
  | Inc, SIGNED => U_strict_order U_bot i && U_strict_order i U_top
  | Inc, SNEG => U_strict_order U_bot i && U_order i U_top
  | Inc, SPOS => U_order U_bot i && U_strict_order i U_top
  | Dec, SIGNED => U_strict_order U_bot i && U_strict_order i U_top
  | Dec, SNEG => U_order U_top i && U_strict_order i U_bot
  | Dec, SPOS => U_strict_order U_bot i && U_order i U_top
  | _, BOUNDED => true
  end.

(** A lattice element is its [val]. *)
Definition bot : Z := U_bot.
Definition top : Z := U_top.

(** The checked constructor [ZTotalOrder(VT2 i)]: [None] when the
    assertion of [check] fails. *)
Definition make (i : Z) : option Z := if U_check i then Some i else None.

(** [dual()]: the same value, unchecked, in the dual universe. *)
Definition dual (v : Z) : Z := v.

(** [is_top], [is_bot]: the [bool] the result is built from. *)
Definition is_top (v : Z) : bool := bool_decide (v = U_top).
Definition is_bot (v : Z) : bool := bool_decide (v = U_bot).

(** [tell(other, has_changed)]: the receiver and the flag afterwards. *)
Definition tell (this other : Z) (has_changed : bool) : Z * bool :=
  if U_strict_order this other then (other, true) else (this, has_changed).

Definition dtell (this other : Z) (has_changed : bool) : Z * bool :=
  if U_strict_order other this then (other, true) else (this, has_changed).

(** [split]: nothing at [top], the element itself elsewhere. *)
Definition split (v : Z) : list Z := if is_top v then [] else [v].

Definition U_universe : Universe.PreUniverse Z :=
  match dir with Inc => inc_universe L sign | Dec => dec_universe L sign end.

End Order.

End ZTotalOrder.

(** ** Dual adapter: dual.hpp

    [Dual<T>] asks [T] for the static members [bot], [top] and the member
    functions [join], [meet], which update the receiver; [join x y] below
    is the receiver [x] after [x.join(y)]. *)
Module DualAdapter.

Class Lattice (T : Type) := {
  bot : T;
  top : T;
  join : T -> T -> T;
  meet : T -> T -> T
}.

Record Dual (T : Type) := mkDual { element : T }.
Arguments mkDual {T} _.
Arguments element {T} _.

#[global] Instance Dual_Lattice {T} `{Lattice T} : Lattice (Dual T) := {|
  bot := mkDual top;
  top := mkDual bot;
  join := fun x other => mkDual (meet (element x) (element other));
  meet := fun x other => mkDual (join (element x) (element other))
|}.

(** The Booleans with the operations of [PreB], as a base lattice. *)
Definition PreB_Lattice : Lattice bool := {|
  bot := PreB.bot; top := PreB.top; join := PreB.join; meet := PreB.meet
|}.

End DualAdapter.

(** * Diagnostics: what converting a result keeps *)
Section DiagnosticsFacts.
Context {T U : Type}.

Lemma map_result_error (conv : T -> U) (other : T + IError) (e : IError) :
  other = inr e -> map_result conv other = inr e.
Proof. intros ->. reflexivity. Qed.

Lemma convert_is_ok (conv : T -> U) (r : IResult T) :
  is_ok (IResult_convert conv r) = is_ok r.
Proof. unfold is_ok, IResult_convert; simpl. now destruct (result r). Qed.

End DiagnosticsFacts.

(** C6: converting a result to a result of another value type (the
    converting constructor, through [map_result]) leaves the warnings
    unchanged, and a result that holds an error is converted to a result
    that holds that same error, never to a success; on a success the
    value is the converted value. *)
Theorem conversion_keeps_warnings_and_error {T U : Type} (conv : T -> U) (r : IResult T) :
  warnings (IResult_convert conv r) = warnings r
  /\ (forall e, result r = inr e ->
        result (IResult_convert conv r) = inr e
        /\ is_ok (IResult_convert conv r) = false)
  /\ error (IResult_convert conv r) = error r
  /\ (forall v, result r = inl v -> result (IResult_convert conv r) = inl (conv v))
  /\ (forall (other : T + IError) e, other = inr e -> map_result conv other = inr e).
Proof.
  unfold IResult_convert, is_ok, error; simpl.
  split; [reflexivity|]. split; [|split; [|split]].
  - intros e ->. split; reflexivity.
  - now destruct (result r).
  - intros v ->. reflexivity.
  - intros other e ->. reflexivity.
Qed.

(** A run of [conversion_keeps_warnings_and_error]: an error result with
    one warning, converted from [bool] to [Z]. *)
Lemma conversion_keeps_warnings_and_error_witness :
  let err := IError_make true "VarEnv" "Undeclared variable `x`." (LV UNTYPED "x") in
  let w := IError_make false "B" "a warning" (B UNTYPED true) in
  let r : IResult bool := push_warning (IResult_error err) w in
  result (IResult_convert (fun b : bool => if b then 1%Z else 0%Z) r) = inr err
  /\ warnings (IResult_convert (fun b : bool => if b then 1%Z else 0%Z) r) = [w].
Proof.
  cbn zeta.
  destruct (conversion_keeps_warnings_and_error
              (fun b : bool => if b then 1%Z else 0%Z)
              (push_warning
                 (IResult_error
                    (IError_make true "VarEnv" "Undeclared variable `x`." (LV UNTYPED "x")))
                 (IError_make false "B" "a warning" (B UNTYPED true))))
    as (Hw & He & _).
  split; [exact (proj1 (He _ eq_refl))|exact Hw].
Defined.

(** * Dual adapter *)
Section DualFacts.
Import DualAdapter.
Context {T : Type} `{Lattice T}.

(** C9: the dual's [bot] stores the base [top] and its [top] the base
    [bot]; its [join] is the base [meet] and its [meet] the base [join] on
    the stored values; wrapping twice gives back the value and the
    operations of the base lattice. *)
Theorem dual_adapter_laws :
  element (bot : Dual T) = top
  /\ element (top : Dual T) = bot
  /\ (forall x y : Dual T, element (join x y) = meet (element x) (element y))
  /\ (forall x y : Dual T, element (meet x y) = join (element x) (element y))
  /\ (forall x : T, element (element (mkDual (mkDual x))) = x)
  /\ element (element (bot : Dual (Dual T))) = bot
  /\ element (element (top : Dual (Dual T))) = top
  /\ (forall x y : Dual (Dual T),
        element (element (join x y)) = join (element (element x)) (element (element y)))
  /\ (forall x y : Dual (Dual T),
        element (element (meet x y)) = meet (element (element x)) (element (element y))).
Proof. repeat split. Qed.

End DualFacts.

(** The adapter at [PreB]: the dual bottom stores [true]. *)
Example dual_PreB_bot :
  DualAdapter.element (@DualAdapter.bot _ (@DualAdapter.Dual_Lattice _ DualAdapter.PreB_Lattice)) = PreB.top.
Proof. reflexivity. Qed.

(** * PreB: telling a Boolean constant *)
Section PreBFacts.
Import Stmt.

(** The constant the order can represent exactly is accepted. *)
Lemma interpret_tell_safe_constant (diagnose dualize : bool) (ty : AType) (s : store) :
  PreB.interpret_tell diagnose dualize (B ty dualize) s
  = Some (true, mkStore dualize (diagnostics s)).
Proof. destruct dualize; reflexivity. Qed.

(** Had the two inner diagnostics been [RETURN_INTERPRETATION_ERROR], the
    other constant would be rejected with the store's [tell] untouched. *)
Lemma interpret_tell_body_with_return (diagnose dualize : bool) (ty : AType) (s : store) :
  exists d,
    call (PreB.interpret_tell_body (RETURN_INTERPRETATION_ERROR diagnose PreB.name)
            diagnose dualize (B ty (negb dualize))) s
    = Some (false, mkStore (tell s) d).
Proof. destruct dualize, diagnose, s; simpl; eexists; reflexivity. Qed.

(** C5, what the code does on the other constant: the error is recorded,
    control falls through, [tell] receives the constant and the call
    returns [true]. *)
Theorem interpret_tell_unsafe_constant (diagnose dualize : bool) (ty : AType) (s : store) :
  PreB.interpret_tell diagnose dualize (B ty (negb dualize)) s
  = Some (true,
          mkStore (negb dualize)
            (if diagnose
             then add_suberror (diagnostics s)
                    (IError_make true PreB.name
                       (if dualize then PreB.msg_false_overapproximated
                        else PreB.msg_true_overapproximated)
                       (B ty (negb dualize)))
             else diagnostics s)).
Proof. destruct dualize, diagnose, s; reflexivity. Qed.

End PreBFacts.

(** * Covers: [next] and [prev] *)
Section CoverFacts.
Import Universe ZUniverse.

(** On Booleans ordered by [false < true] the only cover is [true] over
    [false]. *)
Lemma bool_cover_inv (U : PreUniverse bool) (x y : bool) :
  @strict_order _ U = (fun a b => negb a && b) ->
  @covers _ U x y -> x = false /\ y = true.
Proof.
  intros Hs (_ & Hlt & _). rewrite Hs in Hlt. now destruct x, y.
Qed.

Lemma bool_cover (U : PreUniverse bool) :
  @in_universe _ U = (fun _ => True) ->
  @strict_order _ U = (fun a b => negb a && b) ->
  @covers _ U false true.
Proof.
  intros Hin Hs. unfold covers. rewrite Hin, Hs.
  repeat split. intros z _ [Hz1 Hz2]. now destruct z.
Qed.

Lemma PreB_next_contract : @next_contract _ PreB.universe.
Proof.
  intros x _. split.
  - intros ->. reflexivity.
  - intros Hx. destruct x; [now destruct Hx|]. split.
    + now apply bool_cover.
    + intros y' Hy'. now apply bool_cover_inv in Hy' as [_ ->].
Qed.

Lemma PreB_prev_contract : @prev_contract _ PreB.universe PreB.prev.
Proof.
  intros x _. split.
  - intros ->. reflexivity.
  - intros Hx. destruct x; [|now destruct Hx]. split.
    + now apply bool_cover.
    + intros y' Hy'. now apply bool_cover_inv in Hy' as [-> _].
Qed.

Lemma PreBInc_next_contract : @next_contract _ PreBInc.universe.
Proof.
  intros x _. split.
  - intros ->. reflexivity.
  - intros Hx. destruct x; [now destruct Hx|]. split.
    + now apply bool_cover.
    + intros y' Hy'. now apply bool_cover_inv in Hy' as [_ ->].
Qed.

Lemma PreBInc_prev_contract : @prev_contract _ PreBInc.universe PreBInc.prev.
Proof.
  intros x _. split.
  - intros ->. reflexivity.
  - intros Hx. destruct x; [|now destruct Hx]. split.
    + now apply bool_cover.
    + intros y' Hy'. now apply bool_cover_inv in Hy' as [-> _].
Qed.

(** In the integer universes the cover of [x] is its neighbour. *)
Lemma inc_cover_iff (L : Limits) (sign : Sign) (x y : Z) :
  inc_bot L sign <= x ->
  @covers _ (inc_universe L sign) x y <-> y = x + 1 /\ y <= inc_top L sign.
Proof.
  intros Hx. unfold covers; simpl. unfold inc_strict_order. split.
  - intros (Hy & Hlt & Hmid). apply Z.ltb_lt in Hlt.
    destruct (decide (y = x + 1)) as [->|Hne]; [lia|].
    exfalso. apply (Hmid (x + 1)); [lia|]. split; apply Z.ltb_lt; lia.
  - intros [-> Hy]. split; [lia|]. split; [apply Z.ltb_lt; lia|].
    intros z _ [H1 H2]. apply Z.ltb_lt in H1, H2. lia.
Qed.

Lemma dec_cover_iff (L : Limits) (sign : Sign) (x y : Z) :
  x <= dec_bot L sign ->
  @covers _ (dec_universe L sign) x y <-> y = x - 1 /\ dec_top L sign <= y.
Proof.
  intros Hx. unfold covers; simpl. unfold dec_strict_order. split.
  - intros (Hy & Hlt & Hmid). apply Z.gtb_lt in Hlt.
    destruct (decide (y = x - 1)) as [->|Hne]; [lia|].
    exfalso. apply (Hmid (x - 1)); [lia|]. split; apply Z.gtb_lt; lia.
  - intros [-> Hy]. split; [lia|]. split; [apply Z.gtb_lt; lia|].
    intros z _ [H1 H2]. apply Z.gtb_lt in H1, H2. lia.
Qed.

Lemma inc_next_cover (L : Limits) (sign : Sign) (x : Z) :
  @in_universe _ (inc_universe L sign) x ->
  if inc_stays L sign x then inc_next L sign x = x
  else inc_next L sign x = x + 1
       /\ @unique_cover _ (inc_universe L sign) x (inc_next L sign x).
Proof.
  simpl. intros Hx. unfold inc_next. fold (inc_stays L sign x).
  destruct (inc_stays L sign x) eqn:Hst; [reflexivity|].
  split; [reflexivity|].
  apply orb_false_elim in Hst as [Ht _]. apply bool_decide_eq_false in Ht.
  split.
  - apply inc_cover_iff; lia.
  - intros y' Hy'. apply inc_cover_iff in Hy'; lia.
Qed.

Lemma dec_next_cover (L : Limits) (sign : Sign) (x : Z) :
  @in_universe _ (dec_universe L sign) x ->
  if dec_stays L sign x then dec_next L sign x = x
  else dec_next L sign x = x - 1
       /\ @unique_cover _ (dec_universe L sign) x (dec_next L sign x).
Proof.
  simpl. intros Hx. unfold dec_next. fold (dec_stays L sign x).
  destruct (dec_stays L sign x) eqn:Hst; [reflexivity|].
  split; [reflexivity|].
  apply orb_false_elim in Hst as [Ht _]. apply bool_decide_eq_false in Ht.
  split.
  - apply dec_cover_iff; lia.
  - intros y' Hy'. apply dec_cover_iff in Hy'; lia.
Qed.

(** The decreasing universe is the increasing one upside down: this is
    what [dual_type] and [ZTotalOrder::dual], which keeps the value,
    rely on. *)
Lemma dec_is_dual_of_inc (L : Limits) (sign : Sign) :
  dec_bot L sign = inc_top L sign /\ dec_top L sign = inc_bot L sign
  /\ (forall x y, dec_join x y = inc_meet x y)
  /\ (forall x y, dec_meet x y = inc_join x y)
  /\ (forall x y, dec_order x y = inc_order y x)
  /\ (forall x y, dec_strict_order x y = inc_strict_order y x).
Proof.
  repeat split.
  - intros x y. apply Z.geb_leb.
  - intros x y. apply Z.gtb_ltb.
Qed.

End CoverFacts.

(** C7, as stated, fails for the signed increasing integers: at [bot],
    which is not [top], [next] returns [bot] itself, and no element
    covers itself. *)
Lemma next_contract_counterexample :
  let U := ZUniverse.inc_universe ZUniverse.int32_limits ZUniverse.SIGNED in
  @Universe.bot _ U <> @Universe.top _ U
  /\ @Universe.next _ U (@Universe.bot _ U) = @Universe.bot _ U
  /\ ~ @Universe.next_contract _ U.
Proof.
  simpl. split; [discriminate|]. split; [reflexivity|].
  intros H. destruct (H (- 2 ^ 31)%Z) as [_ Hc]; [simpl; lia|].
  destruct Hc as ((_ & Hlt & _) & _); [discriminate|]. discriminate Hlt.
Qed.

(** C7, amended: in the Boolean universes [next] is the unique cover or
    the fixed point at [top], [prev] the unique covered element or the
    fixed point at [bot], with the four cover laws of the progressing
    Booleans; in the integer universes, which have no [prev], [next] also
    stays at [bot] for the signs whose [bot] is the infinite bound, and is
    the unique cover ([x + 1] increasing, [x - 1] decreasing) everywhere
    else. *)
Theorem cover_laws :
  @Universe.next_contract _ PreB.universe
  /\ @Universe.prev_contract _ PreB.universe PreB.prev
  /\ @Universe.next_contract _ PreBInc.universe
  /\ @Universe.prev_contract _ PreBInc.universe PreBInc.prev
  /\ (PreBInc.next false = true /\ PreBInc.next true = true
      /\ PreBInc.prev true = false /\ PreBInc.prev false = false)
  /\ @Universe.next_contract _ ZUniverse.BInc_universe
  /\ (forall L sign x,
        ZUniverse.inc_bot L sign <= x <= ZUniverse.inc_top L sign ->
        if ZUniverse.inc_stays L sign x then ZUniverse.inc_next L sign x = x
        else ZUniverse.inc_next L sign x = x + 1
             /\ @Universe.unique_cover _ (ZUniverse.inc_universe L sign) x
                  (ZUniverse.inc_next L sign x))
  /\ (forall L sign x,
        ZUniverse.dec_top L sign <= x <= ZUniverse.dec_bot L sign ->
        if ZUniverse.dec_stays L sign x then ZUniverse.dec_next L sign x = x
        else ZUniverse.dec_next L sign x = x - 1
             /\ @Universe.unique_cover _ (ZUniverse.dec_universe L sign) x
                  (ZUniverse.dec_next L sign x)).
Proof.
  split; [exact PreB_next_contract|]. split; [exact PreB_prev_contract|].
  split; [exact PreBInc_next_contract|]. split; [exact PreBInc_prev_contract|].
  split; [repeat split|].
  split.
  - intros x Hx. pose proof (inc_next_cover ZUniverse.bool_limits ZUniverse.BOUNDED x Hx) as Hn.
    simpl in Hx. unfold ZUniverse.inc_stays in Hn. simpl in *.
    split.
    + intros ->. reflexivity.
    + intros Hne. rewrite bool_decide_eq_false_2 in Hn by exact Hne.
      rewrite andb_false_r in Hn. simpl in Hn. apply Hn.
  - split; intros L sign x Hx.
    + now apply inc_next_cover.
    + now apply dec_next_cover.
Qed.

(** A run of [cover_laws] on the 32-bit signed integers: 41 is covered by
    42, and the bottom element stays where it is. *)
Lemma cover_laws_witness :
  ZUniverse.inc_next ZUniverse.int32_limits ZUniverse.SIGNED 41 = 42
  /\ ZUniverse.inc_next ZUniverse.int32_limits ZUniverse.SIGNED (- 2 ^ 31) = - 2 ^ 31.
Proof.
  destruct cover_laws as (_ & _ & _ & _ & _ & _ & Hinc & _).
  split.
  - exact (proj1 (Hinc ZUniverse.int32_limits ZUniverse.SIGNED 41
                    ltac:(vm_compute; split; discriminate))).
  - exact (Hinc ZUniverse.int32_limits ZUniverse.SIGNED (- 2 ^ 31)
             ltac:(vm_compute; split; discriminate)).
Defined.

(** * Env: declarations, snapshots and the index *)
Section EnvFacts.
Import Env.

Lemma extends_abstract_doms_loop_spec n e :
  extends_abstract_doms_loop n e = mkVarEnv (lvars e) (avar2lvar e ++ replicate n []).
Proof.
  revert e. induction n as [|n IH]; intros e; simpl.
  - rewrite app_nil_r. now destruct e.
  - rewrite IH. simpl. now rewrite <- app_assoc.
Qed.

Lemma extends_abstract_doms_spec a e :
  extends_abstract_doms a e = if decide (a < 0) then None else Some (grown a e).
Proof.
  unfold extends_abstract_doms. destruct (decide (a < 0)); [reflexivity|].
  now rewrite extends_abstract_doms_loop_spec.
Qed.

Lemma grown_row a e :
  0 <= a ->
  exists row, avar2lvar (grown a e) !! Z.to_nat a = Some row
              /\ length row = num_vars_in a e
              /\ (avar2lvar e !! Z.to_nat a = Some row
                  \/ (length (avar2lvar e) <= Z.to_nat a)%nat /\ row = []).
Proof.
  intros Ha. unfold grown, num_vars_in; simpl.
  destruct (decide (Z.to_nat a < length (avar2lvar e))%nat) as [Hlt|Hge].
  - destruct (lookup_lt_is_Some_2 _ _ Hlt) as [row Hrow].
    exists row. rewrite lookup_app_l by exact Hlt.
    rewrite decide_False by lia. rewrite Hrow. auto.
  - exists []. rewrite lookup_app_r by lia.
    rewrite lookup_replicate_2 by lia.
    rewrite decide_True by lia. split; [reflexivity|]. split; [reflexivity|]. right. split; [lia|reflexivity].
Qed.

Lemma grown_idem a e : 0 <= a -> grown a (grown a e) = grown a e.
Proof.
  intros Ha. unfold grown; simpl. f_equal.
  rewrite length_app, length_replicate.
  replace (Z.to_nat (a + 1) - (length (avar2lvar e) + (Z.to_nat (a + 1) - length (avar2lvar e))))%nat with 0%nat by lia.
  simpl. now rewrite app_nil_r.
Qed.

Lemma grown_id a e : (Z.to_nat a < length (avar2lvar e))%nat -> 0 <= a -> grown a e = e.
Proof.
  intros Hlt Ha. unfold grown.
  replace (Z.to_nat (a + 1) - length (avar2lvar e))%nat with 0%nat by lia.
  simpl. rewrite app_nil_r. now destruct e.
Qed.

Lemma lvar_index_of_Some nm e i :
  lvar_index_of nm e = Some i ->
  exists v, lvars e !! i = Some v /\ name v = nm
            /\ forall j w, lvars e !! j = Some w -> (j < i)%nat -> name w <> nm.
Proof.
  unfold lvar_index_of. intros H.
  apply fmap_Some in H as ([j v] & Hf & ->). simpl.
  apply list_find_Some in Hf as (Hl & Hn & Hmin). eauto.
Qed.

Lemma lvar_index_of_None nm e :
  lvar_index_of nm e = None <-> Forall (fun v => name v <> nm) (lvars e).
Proof.
  unfold lvar_index_of. rewrite fmap_None. apply list_find_None.
Qed.

Lemma variable_of_Some nm e v :
  variable_of nm e = Some v ->
  exists i, lvar_index_of nm e = Some i /\ lvars e !! i = Some v /\ name v = nm.
Proof.
  unfold variable_of. destruct (lvar_index_of nm e) as [i|] eqn:Hi; [|discriminate].
  intros Hv. destruct (lvar_index_of_Some _ _ _ Hi) as (w & Hw & Hn & _).
  exists i. split; [reflexivity|]. split; [exact Hv|]. congruence.
Qed.

Lemma variable_of_None nm e :
  variable_of nm e = None <-> lvar_index_of nm e = None.
Proof.
  unfold variable_of. split.
  - destruct (lvar_index_of nm e) as [i|] eqn:Hi; [|reflexivity].
    destruct (lvar_index_of_Some _ _ _ Hi) as (w & Hw & _). congruence.
  - intros ->. reflexivity.
Qed.

Lemma extends_vars_spec a nm so e :
  extends_vars a nm so e = if decide (a < 0) then None else declared a nm so e.
Proof.
  unfold extends_vars, declared. rewrite extends_abstract_doms_spec.
  destruct (decide (a < 0)) as [|Ha]; [reflexivity|]. simpl.
  destruct (grown_row a e) as (row & Hrow & Hlen & _); [lia|].
  unfold grown in Hrow; simpl in Hrow.
  rewrite Hrow. simpl. rewrite Hlen.
  change (lvar_index_of nm (grown a e)) with (lvar_index_of nm e).
  destruct (lvar_index_of nm e) as [i|]; [|reflexivity].
  destruct (lvars e !! i) as [v|]; reflexivity.
Qed.

Lemma ext_var_refl v : ext_var v v.
Proof. split; [reflexivity|]. split; reflexivity. Qed.

Lemma ext_var_trans v1 v2 v3 : ext_var v1 v2 -> ext_var v2 v3 -> ext_var v1 v3.
Proof.
  intros (Hn1 & Hs1 & Hp1) (Hn2 & Hs2 & Hp2).
  split; [congruence|]. split; [congruence|]. now transitivity (avars v2).
Qed.

Lemma ext_refl e : ext e e.
Proof.
  split.
  - intros i v Hv. exists v. split; [exact Hv|apply ext_var_refl].
  - intros d row Hrow. exists row. split; [exact Hrow|reflexivity].
Qed.

Lemma ext_trans e1 e2 e3 : ext e1 e2 -> ext e2 e3 -> ext e1 e3.
Proof.
  intros [Hv12 Hr12] [Hv23 Hr23]. split.
  - intros i v Hv. destruct (Hv12 _ _ Hv) as (v2 & Hv2 & Hx2).
    destruct (Hv23 _ _ Hv2) as (v3 & Hv3 & Hx3).
    exists v3. split; [exact Hv3|]. eapply ext_var_trans; eassumption.
  - intros d row Hrow. destruct (Hr12 _ _ Hrow) as (r2 & Hr2 & Hp2).
    destruct (Hr23 _ _ Hr2) as (r3 & Hr3 & Hp3).
    exists r3. split; [exact Hr3|]. now transitivity r2.
Qed.

Lemma ext_grown a e : ext e (grown a e).
Proof.
  split.
  - intros i v Hv. exists v. split; [exact Hv|apply ext_var_refl].
  - intros d row Hrow. exists row. split; [|reflexivity].
    unfold grown; simpl. now apply lookup_app_l_Some.
Qed.

Lemma index_inv_grown a e : index_inv e -> index_inv (grown a e).
Proof.
  intros Hinv d slot idx row Hd Hs. unfold grown in Hd; simpl in Hd.
  apply lookup_app_Some in Hd as [Hd|[_ Hd]].
  - exact (Hinv _ _ _ _ Hd Hs).
  - apply lookup_replicate in Hd as [-> _]. discriminate Hs.
Qed.

Lemma handles_inv_grown a e : handles_inv e -> handles_inv (grown a e).
Proof.
  intros Hinv i v av Hv Hav. specialize (Hinv i v av Hv Hav).
  unfold grown; simpl. rewrite length_app. lia.
Qed.

(** Appending [i] to row [a] once the records have become [lv']. *)
Section Push.
Variables (e : VarEnv) (lv' : list variable_type) (a : AType) (i : nat) (row : list nat).
Hypothesis Ha : 0 <= a.
Hypothesis Hrow : avar2lvar e !! Z.to_nat a = Some row.
Hypothesis Hlv : forall j v, lvars e !! j = Some v ->
                   exists v', lv' !! j = Some v' /\ ext_var v v'.

Let e' := mkVarEnv lv' (alter (fun r => r ++ [i]) (Z.to_nat a) (avar2lvar e)).

Lemma push_ext : ext e e'.
Proof.
  split; [exact Hlv|].
  intros d r Hd. subst e'; simpl.
  destruct (decide (Z.to_nat a = d)) as [<-|Hne].
  - rewrite list_lookup_alter_eq, Hd. simpl. eexists. split; [reflexivity|].
    now apply prefix_app_r.
  - rewrite list_lookup_alter_ne by exact Hne. exists r. split; [exact Hd|reflexivity].
Qed.

Lemma push_index_inv :
  (exists v', lv' !! i = Some v' /\ mkAVar a (Z.of_nat (length row)) ∈ avars v') ->
  index_inv e -> index_inv e'.
Proof.
  intros (vi & Hvi & Hin) Hinv d slot idx r Hd Hs. subst e'; simpl in *.
  assert (Hold : forall r0, avar2lvar e !! d = Some r0 -> r0 !! slot = Some idx ->
                   exists v, lv' !! idx = Some v /\ mkAVar (Z.of_nat d) (Z.of_nat slot) ∈ avars v).
  { intros r0 Hr0 Hs0. destruct (Hinv _ _ _ _ Hr0 Hs0) as (v & Hv & Hav).
    destruct (Hlv _ _ Hv) as (v' & Hv' & _ & _ & [k Hk]).
    exists v'. split; [exact Hv'|]. rewrite Hk. apply elem_of_app. now left. }
  destruct (decide (Z.to_nat a = d)) as [<-|Hne].
  - rewrite list_lookup_alter_eq, Hrow in Hd. simpl in Hd. injection Hd as <-.
    apply lookup_app_Some in Hs as [Hs|[Hlen Hs]].
    + exact (Hold _ Hrow Hs).
    + apply list_lookup_singleton_Some in Hs as [Hz <-].
      exists vi. split; [exact Hvi|].
      replace slot with (length row) by lia.
      now rewrite Z2Nat.id by exact Ha.
  - rewrite list_lookup_alter_ne in Hd by exact Hne. exact (Hold _ Hd Hs).
Qed.

Lemma push_handles_inv :
  (forall j v' av, lv' !! j = Some v' -> av ∈ avars v' ->
     av = mkAVar a (Z.of_nat (length row))
     \/ exists v, lvars e !! j = Some v /\ av ∈ avars v) ->
  handles_inv e -> handles_inv e'.
Proof.
  intros Hnew Hinv j v' av Hv' Hav. subst e'; simpl in *.
  rewrite length_alter.
  destruct (Hnew _ _ _ Hv' Hav) as [->|(v & Hv & Hin)].
  - simpl. apply lookup_lt_Some in Hrow. lia.
  - exact (Hinv _ _ _ Hv Hin).
Qed.

End Push.

Lemma lvars_grown a e : lvars (grown a e) = lvars e.
Proof. reflexivity. Qed.

Lemma preserved_refl e : preserved e e.
Proof. split; [apply ext_refl|]. split; auto. Qed.

Lemma preserved_trans e1 e2 e3 : preserved e1 e2 -> preserved e2 e3 -> preserved e1 e3.
Proof.
  intros (Hx1 & Hi1 & Hh1) (Hx2 & Hi2 & Hh2).
  split; [eapply ext_trans; eassumption|]. split; auto.
Qed.

Lemma preserved_grown a e : preserved e (grown a e).
Proof.
  split; [apply ext_grown|]. split; [apply index_inv_grown|apply handles_inv_grown].
Qed.

Lemma declared_preserved a nm so e av e' :
  0 <= a -> declared a nm so e = Some (av, e') -> preserved e e'.
Proof.
  intros Ha. unfold declared.
  destruct (grown_row a e Ha) as (row & Hrow & Hlen & _). rewrite <- Hlen.
  destruct (lvar_index_of nm e) as [i|] eqn:Hi.
  - destruct (lvars e !! i) as [v|] eqn:Hv; [|discriminate].
    destruct (avar_of v a) as [h|].
    + intros [= <- <-]. apply preserved_grown.
    + intros [= <- <-]. eapply preserved_trans; [apply (preserved_grown a)|].
      assert (Hlv : forall j v0, lvars (grown a e) !! j = Some v0 ->
                exists v', alter (fun v => mkVariable (name v) (sort v)
                                     (avars v ++ [mkAVar a (Z.of_nat (length row))])) i (lvars e) !! j
                           = Some v' /\ ext_var v0 v').
      { intros j v0 Hj. change (lvars (grown a e)) with (lvars e) in Hj.
        destruct (decide (i = j)) as [<-|Hne].
        - rewrite list_lookup_alter_eq, Hj. simpl. eexists. split; [reflexivity|].
          split; [reflexivity|]. split; [reflexivity|]. simpl. now apply prefix_app_r.
        - rewrite list_lookup_alter_ne by exact Hne. exists v0. split; [exact Hj|apply ext_var_refl]. }
      unfold push_index, push_avar. cbn [lvars avar2lvar].
      rewrite lvars_grown.
      split; [|split].
      * apply (push_ext (grown a e)); exact Hlv.
      * apply (push_index_inv (grown a e) _ a i row); [exact Ha|exact Hrow|exact Hlv|].
        eexists. rewrite list_lookup_alter_eq, Hv. simpl. split; [reflexivity|].
        simpl. apply elem_of_app. right. now apply list_elem_of_singleton.
      * apply (push_handles_inv (grown a e) _ a i row); [exact Ha|exact Hrow|].
        intros j v' av0 Hj Hin. change (lvars (grown a e)) with (lvars e).
        destruct (decide (i = j)) as [<-|Hne].
        -- rewrite list_lookup_alter_eq, Hv in Hj. simpl in Hj. injection Hj as <-. simpl in Hin.
           apply elem_of_app in Hin as [Hin|Hin].
           ++ right. eauto.
           ++ left. now apply list_elem_of_singleton in Hin.
        -- rewrite list_lookup_alter_ne in Hj by exact Hne. right. eauto.
  - intros [= <- <-]. eapply preserved_trans; [apply (preserved_grown a)|].
    set (avar := mkAVar a (Z.of_nat (length row))).
    assert (Hlv : forall j v0, lvars (grown a e) !! j = Some v0 ->
              exists v', (lvars e ++ [mkVariable nm so [avar]]) !! j = Some v' /\ ext_var v0 v').
    { intros j v0 Hj. exists v0. split; [|apply ext_var_refl]. now apply lookup_app_l_Some. }
    unfold push_index. cbn [lvars avar2lvar].
    split; [|split].
    + apply (push_ext (grown a e)); exact Hlv.
    + apply (push_index_inv (grown a e) _ a _ row); [exact Ha|exact Hrow|exact Hlv|].
      eexists. rewrite lookup_app_r by lia. rewrite Nat.sub_diag. simpl.
      split; [reflexivity|]. simpl. now apply list_elem_of_singleton.
    + apply (push_handles_inv (grown a e) _ a _ row); [exact Ha|exact Hrow|].
      intros j v' av0 Hj Hin. change (lvars (grown a e)) with (lvars e).
      apply lookup_app_Some in Hj as [Hj|[_ Hj]].
      * right. eauto.
      * apply list_lookup_singleton_Some in Hj as [_ <-]. simpl in Hin.
        left. now apply list_elem_of_singleton in Hin.
Qed.

Lemma extends_vars_preserved a nm so e av e' :
  extends_vars a nm so e = Some (av, e') -> 0 <= a /\ preserved e e'.
Proof.
  rewrite extends_vars_spec. destruct (decide (a < 0)); [discriminate|].
  intros H. assert (0 <= a) by lia. split; [assumption|]. eapply declared_preserved; eassumption.
Qed.

Lemma interpret_preserved f e r e' :
  interpret f e = Some (r, e') -> preserved e e'.
Proof.
  destruct f as [ty nm so|ty nm|ty av|ty b|ty z|ty sg ch]; simpl;
    try (intros [= <- <-]; apply preserved_refl).
  - unfold interpret_existential.
    destruct (decide (ty = UNTYPED)); [intros [= <- <-]; apply preserved_refl|].
    assert (Hx : ('(av, e0) ← extends_vars ty nm so e; Some (IResult_ok av, e0)) = Some (r, e')
                 -> preserved e e').
    { destruct (extends_vars ty nm so e) as [[av e0]|] eqn:Hx; [|discriminate].
      simpl. intros [= <- <-]. now apply extends_vars_preserved in Hx. }
    destruct (variable_of nm e) as [var|]; [|exact Hx].
    destruct (decide (sort var <> so)); [intros [= <- <-]; apply preserved_refl|exact Hx].
  - destruct (contains av e); intros [= <- <-]; apply preserved_refl.
Qed.

Lemma do_call_preserved c e e' : do_call c e = Some e' -> preserved e e'.
Proof.
  destruct c as [f|]; simpl.
  - destruct (interpret f e) as [[r e0]|] eqn:Hi; [|discriminate].
    simpl. intros [= <-]. eapply interpret_preserved; eassumption.
  - intros [= <-]. split; [|split].
    + split.
      * intros i v Hv. exists v. split; [exact Hv|apply ext_var_refl].
      * intros d row Hrow. exists row. split; [now apply lookup_app_l_Some|reflexivity].
    + intros Hinv d slot idx row Hd Hs. simpl in Hd.
      apply lookup_app_Some in Hd as [Hd|[_ Hd]]; [exact (Hinv _ _ _ _ Hd Hs)|].
      apply list_lookup_singleton_Some in Hd as [_ <-]. discriminate Hs.
    + intros Hinv i v av Hv Hav. specialize (Hinv i v av Hv Hav). simpl.
      rewrite length_app. lia.
Qed.

Lemma do_calls_preserved cs e e' : do_calls cs e = Some e' -> preserved e e'.
Proof.
  revert e. induction cs as [|c cs IH]; intros e; simpl.
  - intros [= <-]. apply preserved_refl.
  - destruct (do_call c e) as [e1|] eqn:Hc; [|discriminate]. simpl. intros H.
    eapply preserved_trans; [eapply do_call_preserved; eassumption|now apply IH].
Qed.

Section Truncate.
Context {A : Type} (f : A -> nat -> A) (size : A -> nat) (R : A -> A -> Prop).
Variables l l' : list A.
Hypothesis Hext : forall i x, l !! i = Some x -> exists x', l' !! i = Some x' /\ R x x'.
Hypothesis Hback : forall x x', R x x' -> f x' (size x) = x.

Lemma ext_length : (length l <= length l')%nat.
Proof.
  destruct (decide (length l' < length l)%nat) as [Hlt|]; [|lia].
  destruct (lookup_lt_is_Some_2 _ _ Hlt) as [x Hx].
  destruct (Hext _ _ Hx) as (x' & Hx' & _).
  apply lookup_lt_Some in Hx'. lia.
Qed.

Lemma zip_with_truncate :
  zip_with f (take (length (size <$> l)) l') (size <$> l) = l.
Proof.
  apply list_eq. intros i. rewrite lookup_zip_with, list_lookup_fmap, length_fmap.
  destruct (l !! i) as [x|] eqn:Hx; simpl.
  - destruct (Hext _ _ Hx) as (x' & Hx' & HR).
    rewrite lookup_take_lt by (apply lookup_lt_Some in Hx; exact Hx).
    rewrite Hx'. simpl. f_equal. now apply Hback.
  - now destruct (take (length l) l' !! i).
Qed.

End Truncate.

Lemma restore_snapshot_ext e e' : ext e e' -> restore (snapshot e) e' = Some e.
Proof.
  intros [Hv Hr]. unfold restore, snapshot. cbn [lvars_snap avar2lvar_snap].
  rewrite decide_True.
  2:{ rewrite !length_fmap. split; eapply ext_length; eassumption. }
  destruct e as [lv rows]. cbn [lvars avar2lvar] in *. f_equal. f_equal.
  - apply (zip_with_truncate _ _ ext_var _ _ Hv).
    intros [n s avs] [n' s' avs'] (Hn & Hs & [k Hk]). simpl in *. subst.
    f_equal. now apply resize_app.
  - apply (zip_with_truncate _ _ prefix _ _ Hr).
    intros row row' [k ->]. now apply resize_app.
Qed.

Lemma do_calls_restore cs e e' :
  do_calls cs e = Some e' -> restore (snapshot e) e' = Some e.
Proof. intros H. apply restore_snapshot_ext. now apply do_calls_preserved in H as [? _]. Qed.

Lemma env_inv_empty : env_inv empty.
Proof.
  split.
  - intros d slot idx row Hd. discriminate Hd.
  - intros i v av Hv. discriminate Hv.
Qed.

Lemma preserved_env_inv e e' : preserved e e' -> env_inv e -> env_inv e'.
Proof. intros (_ & Hi & Hh) [H1 H2]. split; auto. Qed.

Lemma stack_ok_ext e e' st : stack_ok e st -> ext e e' -> stack_ok e' st.
Proof.
  intros Hst Hx. destruct Hst as [|e e0 st Hinv H0 Hst]; constructor; auto.
  eapply ext_trans; eassumption.
Qed.

Lemma stack_ok_lookup e st k snap :
  stack_ok e st -> st !! k = Some snap ->
  exists e0, snap = snapshot e0 /\ env_inv e0 /\ ext e0 e
             /\ stack_ok e0 (drop (S k) st).
Proof.
  intros Hst. revert k. induction Hst as [|e e0 st Hinv H0 Hst IH]; intros k Hk.
  - discriminate Hk.
  - destruct k as [|k]; simpl in Hk.
    + injection Hk as <-. exists e0. simpl. rewrite drop_0. auto.
    + destruct (IH _ Hk) as (e1 & -> & Hinv1 & Hx1 & Hst1).
      exists e1. split; [reflexivity|]. split; [exact Hinv1|].
      split; [eapply ext_trans; eassumption|exact Hst1].
Qed.

Lemma step_session_inv o s s' :
  session_inv s -> step true o s = Some s' -> session_inv s'.
Proof.
  intros [Hinv Hst]. destruct o as [c| |k]; simpl.
  - destruct (do_call c (env s)) as [e'|] eqn:Hc; [|discriminate]. simpl.
    intros [= <-]. apply do_call_preserved in Hc. split; simpl.
    + eapply preserved_env_inv; eassumption.
    + eapply stack_ok_ext; [eassumption|apply Hc].
  - intros [= <-]. split; simpl; [exact Hinv|].
    constructor; [exact Hinv|apply ext_refl|exact Hst].
  - destruct (snaps s !! k) as [snap|] eqn:Hk; [|discriminate]. simpl.
    destruct (stack_ok_lookup _ _ _ _ Hst Hk) as (e0 & -> & Hinv0 & Hx0 & Hst0).
    rewrite (restore_snapshot_ext _ _ Hx0). simpl. intros [= <-]. split; simpl.
    + exact Hinv0.
    + rewrite (drop_S _ _ _ Hk). constructor; [exact Hinv0|apply ext_refl|exact Hst0].
Qed.

Lemma run_session_inv ops s s' :
  session_inv s -> run true ops s = Some s' -> session_inv s'.
Proof.
  revert s. induction ops as [|o ops IH]; intros s Hs; simpl.
  - now intros [= <-].
  - destruct (step true o s) as [s1|] eqn:Ho; [|discriminate]. simpl.
    apply IH. eapply step_session_inv; eassumption.
Qed.

Lemma init_session_inv : session_inv init.
Proof. split; [exact env_inv_empty|constructor]. Qed.

Lemma reachable_env_inv e : reachable e -> env_inv e.
Proof.
  intros (ops & s & Hrun & <-).
  exact (proj1 (run_session_inv _ _ _ init_session_inv Hrun)).
Qed.

Lemma run_stale : env <$> run false stale_ops init = Some stale_env.
Proof. vm_compute. reflexivity. Qed.

Lemma stale_not_inv : ~ index_inv stale_env.
Proof.
  intros H. destruct (H 0%nat 0%nat 0%nat [0%nat] eq_refl eq_refl) as (v & Hv & Hin).
  injection Hv as <-. simpl in Hin.
  apply list_elem_of_singleton in Hin. discriminate Hin.
Qed.

Lemma avar_of_list_Some avs a h :
  avar_of_list avs a = Some h -> h ∈ avs /\ aty h = a.
Proof.
  induction avs as [|av avs IH]; simpl; [discriminate|].
  destruct (decide (aty av = a)) as [Heq|Hne].
  - intros [= <-]. split; [apply list_elem_of_here|exact Heq].
  - intros H. destruct (IH H) as [Hin Ha]. split; [now apply list_elem_of_further|exact Ha].
Qed.

Lemma avar_of_list_None avs a :
  avar_of_list avs a = None <-> forall h, h ∈ avs -> aty h <> a.
Proof.
  induction avs as [|av avs IH]; simpl.
  - split; [|reflexivity]. intros _ h Hh. now apply not_elem_of_nil in Hh.
  - destruct (decide (aty av = a)) as [Heq|Hne].
    + split; [discriminate|]. intros H. exfalso. apply (H av); [apply list_elem_of_here|exact Heq].
    + rewrite IH. split.
      * intros H h Hh. apply elem_of_cons in Hh as [->|Hh]; [exact Hne|now apply H].
      * intros H h Hh. apply H. now apply list_elem_of_further.
Qed.

Lemma avar_of_list_snoc avs a h :
  avar_of_list avs a = None -> aty h = a -> avar_of_list (avs ++ [h]) a = Some h.
Proof.
  induction avs as [|av avs IH]; simpl; intros Hn Ha.
  - now rewrite decide_True.
  - destruct (decide (aty av = a)); [discriminate|]. now apply IH.
Qed.


(** The first record named [nm] once the records have changed place by
    place into records of the same names. *)
Lemma lvar_index_of_alter nm e i f rows :
  (forall v, name (f v) = name v) ->
  lvar_index_of nm (mkVarEnv (alter f i (lvars e)) rows) = lvar_index_of nm e.
Proof.
  intros Hf. unfold lvar_index_of; cbn [lvars].
  generalize (lvars e) as l. intros l. revert i.
  induction l as [|v l IH]; intros i; [reflexivity|].
  destruct i as [|i]; simpl.
  - rewrite Hf. destruct (decide (name v = nm)); [reflexivity|]. reflexivity.
  - destruct (decide (name v = nm)); [reflexivity|].
    assert (Hfst : forall o : option (nat * variable_type),
              fst <$> (prod_map S id <$> o) = S <$> (fst <$> o))
      by (intros [[j w]|]; reflexivity).
    rewrite !Hfst. f_equal. apply IH.
Qed.

Lemma lvar_index_of_snoc nm e v rows :
  lvar_index_of nm e = None -> name v = nm ->
  lvar_index_of nm (mkVarEnv (lvars e ++ [v]) rows) = Some (length (lvars e)).
Proof.
  intros Hn Hv. apply lvar_index_of_None in Hn.
  unfold lvar_index_of; cbn [lvars].
  destruct (list_find (fun v0 => name v0 = nm) (lvars e ++ [v])) as [[j w]|] eqn:Hf.
  - apply list_find_Some in Hf as (Hj & Hw & Hmin). simpl.
    apply lookup_app_Some in Hj as [Hj|[Hlen Hj]].
    + exfalso. apply list_elem_of_lookup_2 in Hj.
      rewrite Forall_forall in Hn. now apply (Hn w).
    + apply list_lookup_singleton_Some in Hj as [Hz _]. f_equal. lia.
  - exfalso. apply list_find_None in Hf. rewrite Forall_app in Hf.
    destruct Hf as [_ Hf]. apply Forall_inv in Hf. now apply Hf.
Qed.

(** After a declaration that succeeded, the name resolves to a record that
    owns the returned handle in the declared domain, which exists. *)
Lemma declared_lookup a nm so e h e1 :
  0 <= a -> declared a nm so e = Some (h, e1) ->
  exists i v1,
    lvar_index_of nm e1 = Some i /\ lvars e1 !! i = Some v1
    /\ avar_of v1 a = Some h
    /\ (Z.to_nat a < length (avar2lvar e1))%nat
    /\ (sort v1 = so \/ exists v, variable_of nm e = Some v /\ sort v1 = sort v).
Proof.
  intros Ha. unfold declared.
  assert (Hlen : (Z.to_nat a < length (avar2lvar (grown a e)))%nat).
  { unfold grown; cbn [avar2lvar]. rewrite length_app, length_replicate. lia. }
  destruct (lvar_index_of nm e) as [i|] eqn:Hi.
  - destruct (lvars e !! i) as [v|] eqn:Hv; [|discriminate].
    assert (Hvar : variable_of nm e = Some v) by (unfold variable_of; now rewrite Hi).
    destruct (avar_of v a) as [h0|] eqn:Hav.
    + intros [= <- <-]. exists i, v. repeat split; eauto.
    + intros [= <- <-]. unfold push_index, push_avar; cbn [lvars avar2lvar].
      eexists i, _. split; [|split; [|split; [|split]]].
      * rewrite lvar_index_of_alter by reflexivity. exact Hi.
      * rewrite lvars_grown, list_lookup_alter_eq, Hv. reflexivity.
      * unfold avar_of; simpl. now apply avar_of_list_snoc.
      * now rewrite length_alter.
      * right. exists v. split; [exact Hvar|reflexivity].
  - intros [= <- <-]. unfold push_index; cbn [lvars avar2lvar].
    eexists (length (lvars e)), _. split; [|split; [|split; [|split]]].
    + now apply lvar_index_of_snoc.
    + rewrite lookup_app_r by lia. rewrite Nat.sub_diag. reflexivity.
    + unfold avar_of; simpl. now rewrite decide_True.
    + now rewrite length_alter.
    + left. reflexivity.
Qed.

Lemma interpret_existential_typed ty nm so e :
  0 <= ty -> (forall var, variable_of nm e = Some var -> sort var = so) ->
  interpret (E ty nm so) e
  = '(av, e') ← declared ty nm so e; Some (IResult_ok av, e').
Proof.
  intros Hty Hsort. simpl. unfold interpret_existential.
  rewrite decide_False by (unfold UNTYPED; lia).
  rewrite extends_vars_spec, decide_False by lia.
  destruct (variable_of nm e) as [var|]; [|reflexivity].
  rewrite decide_False; [reflexivity|]. intros Hne. apply Hne. now apply Hsort.
Qed.

Lemma declared_total a nm so e : is_Some (declared a nm so e).
Proof.
  unfold declared. destruct (lvar_index_of nm e) as [i|] eqn:Hi; [|eauto].
  destruct (lvar_index_of_Some _ _ _ Hi) as (v & -> & _).
  destruct (avar_of v a); eauto.
Qed.

(** C1: from any environment [e] (in particular one reached by [interpret]
    and new-domain calls), after any further calls [cs] that return,
    restoring the snapshot of [e] succeeds and gives back [e]: [num_vars],
    [num_vars_in d] for every [d] and [variable_of nm] for every name are
    what they were when the snapshot was taken. *)
Theorem snapshot_restore_inverse (e : VarEnv) (cs : list call) (e' : VarEnv) :
  do_calls cs e = Some e' ->
  exists e'', restore (snapshot e) e' = Some e''
    /\ num_vars e'' = num_vars e
    /\ (forall d, num_vars_in d e'' = num_vars_in d e)
    /\ (forall nm, variable_of nm e'' = variable_of nm e)
    /\ e'' = e.
Proof.
  intros H. exists e. rewrite (do_calls_restore _ _ _ H). repeat split.
Qed.

(** A run of [snapshot_restore_inverse]: four calls after the snapshot,
    one of them failing, then the restore. *)
Lemma snapshot_restore_inverse_witness :
  exists e', do_calls [Interpret (E 2 "y" Int); NewDomain; Interpret (E 1 "x" Bool);
                       Interpret (LV UNTYPED "z")] one_var = Some e'
    /\ num_vars e' = 2%nat
    /\ restore (snapshot one_var) e' = Some one_var.
Proof.
  eexists. split; [vm_compute; reflexivity|]. split; [reflexivity|].
  destruct (snapshot_restore_inverse one_var
              [Interpret (E 2 "y" Int); NewDomain; Interpret (E 1 "x" Bool);
               Interpret (LV UNTYPED "z")] _ ltac:(vm_compute; reflexivity))
    as (e'' & Hr & _ & _ & _ & ->).
  exact Hr.
Defined.

(** C3, amended: after every sequence of [interpret], new-domain,
    snapshot and restore operations from the empty environment in which
    every restore goes back to a snapshot of the undo stack (one taken in
    a state the environment has only grown from since), the index
    invariant holds. *)
Theorem index_invariant_undo_stack (ops : list op) (s : session) :
  run true ops init = Some s -> index_inv (env s).
Proof.
  intros Hrun. exact (proj1 (proj1 (run_session_inv _ _ _ init_session_inv Hrun))).
Qed.

(** C3, as stated, fails: when any snapshot taken earlier may be restored,
    [stale_ops] passes both assertions of every [restore] and ends in
    [stale_env], whose entry at [(0, 0)] points to a record that has no
    handle [(0, 0)]. *)
Lemma index_invariant_counterexample :
  ~ (forall ops s, run false ops init = Some s -> index_inv (env s)).
Proof.
  intros H. pose proof (H stale_ops) as H1.
  destruct (run false stale_ops init) as [s|] eqn:Hrun; [|vm_compute in Hrun; discriminate].
  specialize (H1 s eq_refl). vm_compute in Hrun. injection Hrun as <-.
  apply stale_not_inv. exact H1.
Qed.

(** A run of [index_invariant_undo_stack] with two restores. *)
Lemma index_invariant_undo_stack_witness :
  index_inv (mkVarEnv [mkVariable "x" Bool [mkAVar 0 0]; mkVariable "y" Bool [mkAVar 1 0; mkAVar 0 1]]
                      [[0; 1]; [1]]%nat).
Proof.
  exact (index_invariant_undo_stack
           [Snapshot; Call (Interpret (E 0 "x" Bool)); Snapshot; Restore 1;
            Call (Interpret (E 0 "x" Bool)); Snapshot; Call (Interpret (E 1 "y" Bool));
            Call NewDomain; Restore 0; Call (Interpret (E 1 "y" Bool));
            Call (Interpret (E 0 "y" Bool))]
           (mkSession _ _) ltac:(vm_compute; reflexivity)).
Defined.


(** The code's lookups are the data-level notions: [lvar_index_of] and
    [variable_of] find the first record of a name, [avar_of] the first
    handle of a domain. *)
Lemma first_record_lookup x e i v :
  first_record x e i v <-> lvar_index_of x e = Some i /\ variable_of x e = Some v.
Proof.
  unfold first_record, variable_of, lvar_index_of. split.
  - intros (Hl & Hn & Hmin).
    assert (Hf : list_find (fun v0 => name v0 = x) (lvars e) = Some (i, v)).
    { apply list_find_Some. split; [exact Hl|]. split; [exact Hn|]. exact Hmin. }
    rewrite Hf. simpl. split; [reflexivity|exact Hl].
  - intros (Hi & Hv). rewrite Hi in Hv.
    apply fmap_Some in Hi as ([j w] & Hf & Hj). simpl in Hj. subst j.
    apply list_find_Some in Hf as (Hl & Hn & Hmin).
    rewrite Hl in Hv. injection Hv as <-. auto.
Qed.

Lemma first_record_exists x e :
  (exists v, v ∈ lvars e /\ name v = x) -> exists i var, first_record x e i var.
Proof.
  intros (v & Hin & Hn).
  destruct (lvar_index_of x e) as [i|] eqn:Hi.
  - destruct (lvar_index_of_Some _ _ _ Hi) as (w & Hw & Hnw & Hmin).
    exists i, w. split; [exact Hw|]. split; [exact Hnw|exact Hmin].
  - apply lvar_index_of_None in Hi. rewrite Forall_forall in Hi.
    exfalso. exact (Hi v Hin Hn).
Qed.

Lemma first_handle_avar_of a v h :
  first_handle a v h <-> avar_of v a = Some h.
Proof.
  unfold first_handle, avar_of. generalize (avars v) as avs.
  induction avs as [|av avs IH]; simpl.
  - split; [intros (k & Hk & _); discriminate Hk|discriminate].
  - destruct (decide (aty av = a)) as [Heq|Hne].
    + split.
      * intros (k & Hk & Ha & Hmin). destruct k as [|k].
        -- simpl in Hk. congruence.
        -- exfalso. apply (Hmin 0%nat av); [reflexivity|lia|exact Heq].
      * intros [= <-]. exists 0%nat. split; [reflexivity|]. split; [exact Heq|].
        intros k' h' _ Hlt. lia.
    + rewrite <- IH. split.
      * intros (k & Hk & Ha & Hmin). destruct k as [|k].
        -- simpl in Hk. injection Hk as ->. contradiction.
        -- exists k. split; [exact Hk|]. split; [exact Ha|].
           intros k' h' Hk' Hlt. apply (Hmin (S k') h'); [exact Hk'|lia].
      * intros (k & Hk & Ha & Hmin). exists (S k). split; [exact Hk|]. split; [exact Ha|].
        intros k' h' Hk' Hlt. destruct k' as [|k'].
        -- simpl in Hk'. injection Hk' as <-. exact Hne.
        -- apply (Hmin k' h'); [exact Hk'|lia].
Qed.

Lemma first_handle_exists a v :
  (exists h0, h0 ∈ avars v /\ aty h0 = a) -> exists h, first_handle a v h.
Proof.
  intros (h0 & Hin & Ha).
  destruct (avar_of v a) as [h|] eqn:Hav.
  - exists h. now apply first_handle_avar_of.
  - unfold avar_of in Hav. rewrite avar_of_list_None in Hav.
    exfalso. exact (Hav h0 Hin Ha).
Qed.

Lemma first_handle_none a v :
  (forall h, h ∈ avars v -> aty h <> a) <-> avar_of v a = None.
Proof. unfold avar_of. now rewrite avar_of_list_None. Qed.




(** In [shadowed] the name [x] stands for the first record, whose handle
    in domain 3 is the first of its two handles there. *)
Lemma shadowed_first_record :
  first_record "x" shadowed 0
    (mkVariable "x" Bool [mkAVar 3 0; mkAVar 3 1; mkAVar 5 0]).
Proof.
  split; [reflexivity|]. split; [reflexivity|]. intros j w _ Hlt. lia.
Qed.

Lemma shadowed_first_handle :
  first_handle 3 (mkVariable "x" Bool [mkAVar 3 0; mkAVar 3 1; mkAVar 5 0]) (mkAVar 3 0).
Proof.
  exists 0%nat. split; [reflexivity|]. split; [reflexivity|]. intros k' h' _ Hlt. lia.
Qed.


(** C4: a name occurrence [(x, ty)] fails with the undeclared-variable
    error when no record is called [x]; otherwise [x] stands for the first
    record called [x]: with a domain given the occurrence returns that
    record's (first) handle in the domain, and fails with the
    undeclared-in-domain error when the record has no handle there;
    without a domain it returns the sole handle when the record has
    exactly one, and fails with the ambiguous-occurrence error otherwise.
    The environment is never changed. *)
Theorem name_occurrence (e : VarEnv) (ty : AType) (x : string) :
  ((forall v, v ∈ lvars e -> name v <> x) ->
     interpret (LV ty x) e = Some (IResult_error (err_undeclared x (LV ty x)), e))
  /\ ((exists v, v ∈ lvars e /\ name v = x) -> exists i var, first_record x e i var)
  /\ (forall i var, first_record x e i var ->
        (ty <> UNTYPED -> (exists h0, h0 ∈ avars var /\ aty h0 = ty) ->
           exists h, first_handle ty var h)
        /\ (ty <> UNTYPED -> forall h, first_handle ty var h ->
              interpret (LV ty x) e = Some (IResult_ok h, e))
        /\ (ty <> UNTYPED -> (forall h, h ∈ avars var -> aty h <> ty) ->
              interpret (LV ty x) e
              = Some (IResult_error (err_undeclared_in_domain x (LV ty x)), e))
        /\ (ty = UNTYPED -> forall h, avars var = [h] ->
              interpret (LV ty x) e = Some (IResult_ok h, e))
        /\ (ty = UNTYPED -> length (avars var) <> 1%nat ->
              interpret (LV ty x) e = Some (IResult_error (err_ambiguous x (LV ty x)), e))).
Proof.
  split; [|split; [apply first_record_exists|]].
  - intros Hno. simpl. unfold interpret_lv.
    assert (Hn : variable_of x e = None).
    { apply variable_of_None, lvar_index_of_None, Forall_forall. exact Hno. }
    now rewrite Hn.
  - intros i var Hfr.
    pose proof (proj1 (first_record_lookup _ _ _ _) Hfr) as [_ Hvar].
    simpl. unfold interpret_lv. rewrite Hvar.
    split; [|split; [|split; [|split]]].
    + intros _. apply first_handle_exists.
    + intros Hty h Hh. apply first_handle_avar_of in Hh.
      rewrite decide_True by exact Hty. now rewrite Hh.
    + intros Hty Hno. rewrite decide_True by exact Hty.
      apply first_handle_none in Hno. now rewrite Hno.
    + intros -> h Hh. rewrite decide_False by (intros Hc; now apply Hc). now rewrite Hh.
    + intros -> Hlen. rewrite decide_False by (intros Hc; now apply Hc).
      destruct (avars var) as [|h [|h' t]]; simpl in Hlen; [reflexivity|lia|reflexivity].
Qed.

(** The five cases of [name_occurrence]. *)
Lemma name_occurrence_witness :
  interpret (LV UNTYPED "y") shadowed
  = Some (IResult_error (err_undeclared "y" (LV UNTYPED "y")), shadowed)
  /\ interpret (LV 3 "x") shadowed = Some (IResult_ok (mkAVar 3 0), shadowed)
  /\ interpret (LV 4 "x") shadowed
     = Some (IResult_error (err_undeclared_in_domain "x" (LV 4 "x")), shadowed)
  /\ interpret (LV UNTYPED "x") one_var = Some (IResult_ok (mkAVar 0 0), one_var)
  /\ interpret (LV UNTYPED "x") shadowed
     = Some (IResult_error (err_ambiguous "x" (LV UNTYPED "x")), shadowed).
Proof.
  pose (vx := mkVariable "x" Bool [mkAVar 3 0; mkAVar 3 1; mkAVar 5 0]).
  split; [|split; [|split; [|split]]].
  - apply (proj1 (name_occurrence shadowed UNTYPED "y")).
    intros v Hv. repeat (apply elem_of_cons in Hv as [->|Hv]; [discriminate|]).
    now apply not_elem_of_nil in Hv.
  - destruct (proj2 (proj2 (name_occurrence shadowed 3 "x")) 0%nat vx shadowed_first_record)
      as (_ & H & _).
    exact (H ltac:(discriminate) (mkAVar 3 0) shadowed_first_handle).
  - destruct (proj2 (proj2 (name_occurrence shadowed 4 "x")) 0%nat vx shadowed_first_record)
      as (_ & _ & H & _).
    apply H; [discriminate|].
    intros h Hh. repeat (apply elem_of_cons in Hh as [->|Hh]; [discriminate|]).
    now apply not_elem_of_nil in Hh.
  - destruct (proj2 (proj2 (name_occurrence one_var UNTYPED "x")) 0%nat
                (mkVariable "x" Bool [mkAVar 0 0])) as (_ & _ & _ & H & _).
    + split; [reflexivity|]. split; [reflexivity|]. intros j w _ Hlt. lia.
    + exact (H eq_refl _ eq_refl).
  - destruct (proj2 (proj2 (name_occurrence shadowed UNTYPED "x")) 0%nat vx shadowed_first_record)
      as (_ & _ & _ & _ & H).
    apply H; [reflexivity|]. simpl. lia.
Defined.

(** C8: declaring [(x, so, d)] twice in succession (an acceptable
    declaration: [d] a domain id, [so] the sort [x] has if it is known)
    succeeds both times with the same handle, and the second call leaves
    the environment, hence [num_vars], as the first one left it. *)
Theorem redeclaration_idempotent (e : VarEnv) (x : string) (so : Sort) (d : AType) :
  0 <= d ->
  (forall var, variable_of x e = Some var -> sort var = so) ->
  exists h e1 e2,
    interpret (E d x so) e = Some (IResult_ok h, e1)
    /\ interpret (E d x so) e1 = Some (IResult_ok h, e2)
    /\ num_vars e2 = num_vars e1
    /\ e2 = e1.
Proof.
  intros Hd Hsort.
  destruct (declared_total d x so e) as [[h e1] Hdecl].
  exists h, e1, e1.
  assert (H1 : interpret (E d x so) e = Some (IResult_ok h, e1)).
  { rewrite interpret_existential_typed by assumption. now rewrite Hdecl. }
  destruct (declared_lookup _ _ _ _ _ _ Hd Hdecl) as (i & v1 & Hi & Hv1 & Hav & Hlen & Hs).
  assert (Hvar1 : variable_of x e1 = Some v1) by (unfold variable_of; now rewrite Hi).
  split; [exact H1|]. split; [|split; reflexivity].
  rewrite interpret_existential_typed; [|exact Hd|].
  - unfold declared. rewrite Hi, Hv1, Hav. simpl. now rewrite grown_id.
  - intros var Hvar. rewrite Hvar1 in Hvar. injection Hvar as <-.
    destruct Hs as [Hs|(v & Hv & Hs)]; [exact Hs|]. rewrite Hs. now apply Hsort.
Qed.

(** A run of [redeclaration_idempotent] with a fresh name. *)
Lemma redeclaration_idempotent_witness :
  exists h e1,
    interpret (E 4 "fresh" Int) two_handles = Some (IResult_ok h, e1)
    /\ interpret (E 4 "fresh" Int) e1 = Some (IResult_ok h, e1).
Proof.
  destruct (redeclaration_idempotent two_handles "fresh" Int 4 ltac:(lia)
              ltac:(intros var Hvar; vm_compute in Hvar; discriminate Hvar))
    as (h & e1 & e2 & H1 & H2 & _ & ->).
  exists h, e1. split; assumption.
Defined.



End EnvFacts.

(** * LegacyEnv: the other redeclaration policy *)
Section LegacyEnvFacts.

(** In the older environment a name that is already known cannot be
    declared again, whatever the domain and the sort. *)
Lemma legacy_redeclaration_rejected (f : Formula) (ty : AType) (x : string) (so : Sort)
    (ap : LegacyEnv.Approx) (e : LegacyEnv.VarEnv) :
  ty <> UNTYPED -> LegacyEnv.contains x e = true ->
  LegacyEnv.interpret_existential f ty x so ap e
  = Some (IResult_error (LegacyEnv.err_redeclaration x f), e).
Proof.
  intros Hty Hc. unfold LegacyEnv.interpret_existential.
  rewrite decide_False by exact Hty. now rewrite Hc.
Qed.

Example legacy_declared_twice :
  exists h e1,
    LegacyEnv.interpret_existential (E 0 "x" Bool) 0 "x" Bool LegacyEnv.EXACT LegacyEnv.empty
    = Some (IResult_ok h, e1)
    /\ LegacyEnv.interpret_existential (E 0 "x" Bool) 0 "x" Bool LegacyEnv.EXACT e1
       = Some (IResult_error (LegacyEnv.err_redeclaration "x" (E 0 "x" Bool)), e1).
Proof. eexists _, _. split; vm_compute; reflexivity. Qed.

End LegacyEnvFacts.

(** * Env: what reachable environments look like *)
Section EnvMoreFacts.
Import Env.
Import Env.

Lemma do_calls_app cs cs' e :
  do_calls (cs ++ cs') e = do_calls cs e ≫= do_calls cs'.
Proof.
  revert e. induction cs as [|c cs IH]; intros e; simpl; [reflexivity|].
  destruct (do_call c e) as [e1|]; simpl; [apply IH|reflexivity].
Qed.

Lemma run_calls cs e st :
  run true (Call <$> cs) (mkSession e st)
  = (fun e' => mkSession e' st) <$> do_calls cs e.
Proof.
  revert e. induction cs as [|c cs IH]; intros e; simpl; [reflexivity|].
  destruct (do_call c e) as [e1|]; simpl; [apply IH|reflexivity].
Qed.

Lemma stack_of_ext P e e' st : stack_of P e st -> ext e e' -> stack_of P e' st.
Proof.
  intros Hst Hx. destruct Hst as [|e e0 st HP H0 Hst]; constructor; auto.
  eapply ext_trans; eassumption.
Qed.

Lemma stack_of_lookup P e st k snap :
  stack_of P e st -> st !! k = Some snap ->
  exists e0, snap = snapshot e0 /\ P e0 /\ ext e0 e /\ stack_of P e0 (drop (S k) st).
Proof.
  intros Hst. revert k. induction Hst as [|e e0 st HP H0 Hst IH]; intros k Hk.
  - discriminate Hk.
  - destruct k as [|k]; simpl in Hk.
    + injection Hk as <-. exists e0. simpl. rewrite drop_0. auto.
    + destruct (IH _ Hk) as (e1 & -> & HP1 & Hx1 & Hst1).
      exists e1. split; [reflexivity|]. split; [exact HP1|].
      split; [eapply ext_trans; eassumption|exact Hst1].
Qed.

Lemma decl_reachable_call c e e' :
  decl_reachable e -> do_call c e = Some e' -> decl_reachable e'.
Proof.
  intros [cs Hcs] Hc. exists (cs ++ [c]).
  rewrite do_calls_app, Hcs. simpl. now rewrite Hc.
Qed.

Lemma step_decl_reachable o s s' :
  decl_reachable (env s) /\ stack_of decl_reachable (env s) (snaps s) ->
  step true o s = Some s' ->
  decl_reachable (env s') /\ stack_of decl_reachable (env s') (snaps s').
Proof.
  intros [Hr Hst]. destruct o as [c| |k]; simpl.
  - destruct (do_call c (env s)) as [e'|] eqn:Hc; [|discriminate]. simpl.
    intros [= <-]. simpl. split; [eapply decl_reachable_call; eassumption|].
    eapply stack_of_ext; [eassumption|]. now apply do_call_preserved in Hc as [? _].
  - intros [= <-]. simpl. split; [exact Hr|].
    constructor; [exact Hr|apply ext_refl|exact Hst].
  - destruct (snaps s !! k) as [snap|] eqn:Hk; [|discriminate]. simpl.
    destruct (stack_of_lookup _ _ _ _ _ Hst Hk) as (e0 & -> & Hr0 & Hx0 & Hst0).
    rewrite (restore_snapshot_ext _ _ Hx0). simpl. intros [= <-]. simpl.
    split; [exact Hr0|].
    rewrite (drop_S _ _ _ Hk). constructor; [exact Hr0|apply ext_refl|exact Hst0].
Qed.

Lemma reachable_decl_reachable (e : VarEnv) :
  reachable e <-> decl_reachable e.
Proof.
  split.
  - intros (ops & s & Hrun & <-).
    assert (Hgen : forall ops s0 s1,
               decl_reachable (env s0) /\ stack_of decl_reachable (env s0) (snaps s0) ->
               run true ops s0 = Some s1 ->
               decl_reachable (env s1) /\ stack_of decl_reachable (env s1) (snaps s1)).
    { clear. induction ops as [|o ops IH]; intros s0 s1 H0; simpl.
      - now intros [= <-].
      - destruct (step true o s0) as [s'|] eqn:Ho; [|discriminate]. simpl.
        apply IH. eapply step_decl_reachable; eassumption. }
    apply (Hgen ops init s); [|exact Hrun].
    split; [exists []; reflexivity|constructor].
  - intros [cs Hcs]. exists (Call <$> cs), (mkSession e []).
    split; [|reflexivity]. unfold init. now rewrite run_calls, Hcs.
Qed.

(** Whatever declarations establish and keep holds in every reachable
    environment. *)
Lemma reachable_invariant (P : VarEnv -> Prop) :
  P empty ->
  (forall c e e', P e -> do_call c e = Some e' -> P e') ->
  forall e, reachable e -> P e.
Proof.
  intros H0 Hstep e Hr. apply reachable_decl_reachable in Hr as [cs Hcs].
  revert Hcs. generalize empty, H0. clear H0. revert e.
  induction cs as [|c cs IH]; intros e e0 H0; simpl.
  - now intros [= <-].
  - destruct (do_call c e0) as [e1|] eqn:Hc; [|discriminate]. simpl.
    apply IH. eapply Hstep; eassumption.
Qed.

Lemma changes_trans e1 e2 e3 : changes e1 e2 -> changes e2 e3 -> changes e1 e3.
Proof.
  intros H12 H23. induction H12 as [|e1 e2 e3' Hc Hcs IH]; [exact H23|].
  eapply changes_cons; [exact Hc|]. apply IH, H23.
Qed.

Lemma declared_changes a nm so e h e' :
  0 <= a -> declared a nm so e = Some (h, e') -> changes e e'.
Proof.
  intros Ha. unfold declared.
  destruct (grown_row a e Ha) as (row & Hrow & Hlen & _). rewrite <- Hlen.
  destruct (lvar_index_of nm e) as [i|] eqn:Hi.
  - destruct (lvars e !! i) as [v|] eqn:Hv; [|discriminate].
    destruct (avar_of v a) as [h0|] eqn:Hav; intros [= <- <-].
    + apply (changes_cons _ (grown a e)); [now apply change_grow|apply changes_nil].
    + apply (changes_cons _ (grown a e)); [now apply change_grow|].
      eapply changes_cons; [|apply changes_nil].
      now apply (change_handle a i v row (grown a e)).
  - intros [= <- <-].
    apply (changes_cons _ (grown a e)); [now apply change_grow|].
    eapply changes_cons; [|apply changes_nil].
    exact (change_record a nm so row (grown a e) Ha Hi Hrow).
Qed.

(** An interpretation either leaves the environment alone (and is not an
    accepted declaration) or is an accepted declaration. *)
Lemma interpret_cases f e r e' :
  interpret f e = Some (r, e') ->
  (e' = e /\ forall ty nm so, f = E ty nm so -> is_ok r = false)
  \/ exists ty nm so h,
       f = E ty nm so /\ 0 <= ty /\ r = IResult_ok h
       /\ (forall var, variable_of nm e = Some var -> sort var = so)
       /\ declared ty nm so e = Some (h, e').
Proof.
  destruct f as [ty nm so|ty nm|ty av|ty b|ty z|ty sg ch]; simpl;
    try (intros [= <- <-]; left; split; [reflexivity|discriminate]).
  - unfold interpret_existential.
    destruct (decide (ty = UNTYPED));
      [intros [= <- <-]; left; split; [reflexivity|reflexivity]|].
    assert (Hx : (forall var, variable_of nm e = Some var -> sort var = so) ->
               ('(av, e0) ← extends_vars ty nm so e; Some (IResult_ok av, e0)) = Some (r, e') ->
               exists ty0 nm0 so0 h,
                 E ty nm so = E ty0 nm0 so0 /\ 0 <= ty0 /\ r = IResult_ok h
                 /\ (forall var, variable_of nm0 e = Some var -> sort var = so0)
                 /\ declared ty0 nm0 so0 e = Some (h, e')).
    { intros Hs. rewrite extends_vars_spec.
      destruct (decide (ty < 0)); [discriminate|].
      destruct (declared ty nm so e) as [[h e0]|] eqn:Hd; [|discriminate].
      simpl. intros [= <- <-]. exists ty, nm, so, h.
      repeat split; try assumption. lia. }
    destruct (variable_of nm e) as [var|] eqn:Hvar.
    + destruct (decide (sort var <> so)) as [|Hso].
      * intros [= <- <-]. left. split; reflexivity.
      * intros H. right. apply Hx; [|exact H].
        intros var0 [= <-]. destruct (decide (sort var = so)); [assumption|contradiction].
    + intros H. right. apply Hx; [|exact H]. discriminate.
  - destruct (contains av e); intros [= <- <-]; left; (split; [reflexivity|discriminate]).
Qed.

Lemma do_call_changes c e e' : do_call c e = Some e' -> changes e e'.
Proof.
  destruct c as [f|]; simpl.
  - destruct (interpret f e) as [[r e0]|] eqn:Hi; [|discriminate]. simpl. intros [= <-].
    apply interpret_cases in Hi as [[-> _]|(ty & nm & so & h & _ & Hty & _ & _ & Hd)].
    + apply changes_nil.
    + eapply declared_changes; eassumption.
  - intros [= <-]. eapply changes_cons; [|apply changes_nil].
    replace (mkVarEnv (lvars e) (avar2lvar e ++ [[]]))
      with (grown (Z.of_nat (length (avar2lvar e))) e).
    + apply change_grow. lia.
    + unfold grown. f_equal.
      replace (Z.to_nat (Z.of_nat (length (avar2lvar e)) + 1) - length (avar2lvar e))%nat
        with 1%nat by lia. reflexivity.
Qed.

(** What the elementary changes establish and keep holds in every
    reachable environment. *)
Lemma reachable_change_invariant (P : VarEnv -> Prop) :
  P empty -> (forall e e', P e -> change e e' -> P e') ->
  forall e, reachable e -> P e.
Proof.
  intros H0 Hstep. apply reachable_invariant; [exact H0|].
  intros c e e' HP Hc. apply do_call_changes in Hc.
  induction Hc as [|e1 e2 e3 Hc Hcs IH]; [exact HP|].
  apply IH. eapply Hstep; eassumption.
Qed.

Lemma change_ext e e' : change e e' -> ext e e'.
Proof.
  intros [a e0 Ha|a i v row e0 Ha Hv Hav Hrow|a nm so row e0 Ha Hi Hrow].
  - apply ext_grown.
  - unfold push_index, push_avar; cbn [lvars avar2lvar]. apply push_ext.
    intros j v0 Hj. destruct (decide (i = j)) as [<-|Hne].
    + rewrite list_lookup_alter_eq, Hj. simpl. eexists. split; [reflexivity|].
      split; [reflexivity|]. split; [reflexivity|]. simpl. now apply prefix_app_r.
    + rewrite list_lookup_alter_ne by exact Hne. exists v0. split; [exact Hj|apply ext_var_refl].
  - unfold push_index; cbn [lvars avar2lvar]. apply push_ext.
    intros j v0 Hj. exists v0. split; [now apply lookup_app_l_Some|apply ext_var_refl].
Qed.

Lemma names_alter (f : variable_type -> variable_type) (i : nat) (l : list variable_type) :
  (forall v, name (f v) = name v) -> name <$> alter f i l = name <$> l.
Proof.
  intros Hf. apply list_eq. intros j. rewrite !list_lookup_fmap.
  destruct (decide (i = j)) as [<-|Hne].
  - rewrite list_lookup_alter_eq. destruct (l !! i); simpl; [now rewrite Hf|reflexivity].
  - now rewrite list_lookup_alter_ne.
Qed.

Lemma names_unique_change e e' : names_unique e -> change e e' -> names_unique e'.
Proof.
  unfold names_unique.
  intros Hn Hc.
  destruct Hc as [a e0 Ha|a i v row e0 Ha Hv Hav Hrow|a nm so row e0 Ha Hi Hrow];
    cbn [lvars push_index push_avar].
  - exact Hn.
  - now rewrite names_alter.
  - rewrite fmap_app. apply NoDup_app. split; [exact Hn|]. split; [|apply NoDup_singleton].
    intros x Hx Hx'. apply list_elem_of_singleton in Hx'. subst x.
    apply list_elem_of_fmap in Hx as (v & Hname & Hv).
    apply lvar_index_of_None in Hi. rewrite Forall_forall in Hi.
    now apply (Hi v Hv).
Qed.

Lemma handles_wf_change e e' : handles_wf e -> change e e' -> handles_wf e'.
Proof.
  unfold handles_wf.
  intros Hw Hc.
  destruct Hc as [a e0 Ha|a i v row e0 Ha Hv Hav Hrow|a nm so row e0 Ha Hi Hrow];
    cbn [lvars push_index push_avar]; intros v' Hv'.
  - now apply Hw.
  - apply list_elem_of_lookup in Hv' as [j Hj].
    destruct (decide (i = j)) as [<-|Hne].
    + rewrite list_lookup_alter_eq, Hv in Hj. injection Hj as <-. cbn [avars].
      split; [now destruct (avars v)|].
      rewrite fmap_app. apply NoDup_app.
      split; [apply Hw; eapply list_elem_of_lookup_2; eassumption|].
      split; [|apply NoDup_singleton].
      intros x Hx Hx'. apply list_elem_of_singleton in Hx'. simpl in Hx'. subst x.
      apply list_elem_of_fmap in Hx as (h & Hh & Hin).
      unfold avar_of in Hav. rewrite avar_of_list_None in Hav. now apply (Hav h Hin).
    + rewrite list_lookup_alter_ne in Hj by exact Hne.
      apply Hw. eapply list_elem_of_lookup_2; eassumption.
  - apply elem_of_app in Hv' as [Hv'|Hv'].
    + now apply Hw.
    + apply list_elem_of_singleton in Hv' as ->. cbn [avars].
      split; [discriminate|apply NoDup_singleton].
Qed.

Lemma handles_indexed_change e e' : handles_indexed e -> change e e' -> handles_indexed e'.
Proof.
  intros Hin Hc. pose proof (change_ext _ _ Hc) as [_ Hrows].
  assert (Hold : forall j v av, lvars e !! j = Some v -> av ∈ avars v ->
            0 <= vid av
            /\ exists row', avar2lvar e' !! Z.to_nat (aty av) = Some row'
                            /\ row' !! Z.to_nat (vid av) = Some j).
  { intros j v av Hv Hav. destruct (Hin _ _ _ Hv Hav) as (Hvid & row0 & Hr0 & Hs0).
    split; [exact Hvid|]. destruct (Hrows _ _ Hr0) as (row' & Hr' & Hpre).
    exists row'. split; [exact Hr'|]. eapply prefix_lookup_Some; eassumption. }
  clear Hrows.
  destruct Hc as [a e0 Ha|a i v row e0 Ha Hv Hav Hrow|a nm so row e0 Ha Hi Hrow];
    intros j v' av Hj Hav'.
  - exact (Hold _ _ _ Hj Hav').
  - unfold push_index, push_avar in *; cbn [lvars avar2lvar] in *.
    destruct (decide (i = j)) as [<-|Hne].
    + rewrite list_lookup_alter_eq, Hv in Hj. injection Hj as <-. cbn [avars] in Hav'.
      apply elem_of_app in Hav' as [Hav'|Hav'].
      * exact (Hold _ _ _ Hv Hav').
      * apply list_elem_of_singleton in Hav' as ->. cbn [aty vid].
        split; [lia|]. exists (row ++ [i]).
        rewrite list_lookup_alter_eq, Hrow. split; [reflexivity|].
        rewrite Nat2Z.id. rewrite lookup_app_r by lia. now rewrite Nat.sub_diag.
    + rewrite list_lookup_alter_ne in Hj by exact Hne. exact (Hold _ _ _ Hj Hav').
  - unfold push_index in *; cbn [lvars avar2lvar] in *.
    apply lookup_app_Some in Hj as [Hj|[Hlen Hj]].
    + exact (Hold _ _ _ Hj Hav').
    + apply list_lookup_singleton_Some in Hj as [Hz <-]. cbn [avars] in Hav'.
      apply list_elem_of_singleton in Hav' as ->. cbn [aty vid].
      split; [lia|]. exists (row ++ [length (lvars e0)]).
      rewrite list_lookup_alter_eq, Hrow. split; [reflexivity|].
      rewrite Nat2Z.id. rewrite lookup_app_r by lia. rewrite Nat.sub_diag. simpl.
      f_equal. lia.
Qed.

Lemma names_unique_empty : names_unique empty.
Proof. apply NoDup_nil_2. Qed.

Lemma handles_wf_empty : handles_wf empty.
Proof. intros v Hv. now apply not_elem_of_nil in Hv. Qed.

Lemma handles_indexed_empty : handles_indexed empty.
Proof. intros i v av Hv. discriminate Hv. Qed.

Lemma reachable_names_unique e : reachable e -> names_unique e.
Proof.
  apply (reachable_change_invariant names_unique);
    [exact names_unique_empty|exact names_unique_change].
Qed.

Lemma reachable_handles_indexed e : reachable e -> handles_indexed e.
Proof.
  apply (reachable_change_invariant handles_indexed);
    [exact handles_indexed_empty|exact handles_indexed_change].
Qed.

(** X2: in a reachable environment no two records share a name, and every
    record is the one [variable_of] finds under its name. *)
Theorem reachable_name_lookup (e : VarEnv) :
  reachable e ->
  NoDup (name <$> lvars e)
  /\ forall v, v ∈ lvars e -> variable_of (name v) e = Some v.
Proof.
  intros Hr. pose proof (reachable_names_unique _ Hr) as Hn.
  split; [exact Hn|]. intros v Hv.
  apply list_elem_of_lookup in Hv as [j Hj].
  destruct (variable_of (name v) e) as [w|] eqn:Hw.
  - apply variable_of_Some in Hw as (i & _ & Hi & Hname).
    assert (i = j) as ->.
    { apply (NoDup_lookup _ _ _ (name v) Hn); rewrite list_lookup_fmap.
      - now rewrite Hi; simpl; rewrite Hname.
      - now rewrite Hj. }
    congruence.
  - exfalso. apply variable_of_None, lvar_index_of_None in Hw.
    rewrite Forall_forall in Hw. apply (Hw v); [|reflexivity].
    eapply list_elem_of_lookup_2; eassumption.
Qed.

(** X3: in a reachable environment every record has at least one handle
    and at most one per domain; [avar_of] in the domain of a handle of the
    record finds that handle. *)
Theorem reachable_handles_per_record (e : VarEnv) :
  reachable e ->
  forall v, v ∈ lvars e ->
    avars v <> []
    /\ NoDup (aty <$> avars v)
    /\ forall h, h ∈ avars v -> avar_of v (aty h) = Some h.
Proof.
  intros Hr v Hv.
  assert (Hw : handles_wf e).
  { revert Hr. apply (reachable_change_invariant handles_wf);
      [exact handles_wf_empty|exact handles_wf_change]. }
  destruct (Hw v Hv) as [Hne Hnd]. split; [exact Hne|]. split; [exact Hnd|].
  intros h Hh. unfold avar_of.
  destruct (avar_of_list (avars v) (aty h)) as [h'|] eqn:Hf.
  - apply avar_of_list_Some in Hf as [Hin' Hty].
    apply list_elem_of_lookup in Hh as [p Hp]. apply list_elem_of_lookup in Hin' as [q Hq].
    assert (q = p) as ->.
    { apply (NoDup_lookup _ _ _ (aty h) Hnd); rewrite list_lookup_fmap.
      - now rewrite Hq; simpl; rewrite Hty.
      - now rewrite Hp. }
    congruence.
  - exfalso. rewrite avar_of_list_None in Hf. now apply (Hf h Hh).
Qed.

Lemma handle_resolves_aux (e : VarEnv) (i : nat) (v : variable_type) (av : AVar) :
  reachable e -> lvars e !! i = Some v -> av ∈ avars v ->
  contains av e = true
  /\ at_avar av e = Some v
  /\ name_of av e = Some (name v)
  /\ sort_of av e = Some (sort v)
  /\ forall j w, lvars e !! j = Some w -> av ∈ avars w -> j = i.
Proof.
  intros Hr Hv Hav.
  pose proof (reachable_handles_indexed _ Hr) as Hix.
  destruct (reachable_env_inv _ Hr) as [_ Hh].
  destruct (Hix _ _ _ Hv Hav) as (Hvid & row & Hrow & Hslot).
  pose proof (Hh _ _ _ Hv Hav) as Hty.
  assert (Hat : at_avar av e = Some v).
  { unfold at_avar. rewrite Hrow. simpl. rewrite Hslot. simpl. exact Hv. }
  split; [|split; [exact Hat|split; [|split]]].
  - unfold contains, is_untyped.
    rewrite bool_decide_eq_false_2 by (unfold UNTYPED; lia).
    rewrite bool_decide_eq_true_2 by exact Hty. rewrite Hrow. simpl.
    apply bool_decide_eq_true_2. apply lookup_lt_Some in Hslot. lia.
  - unfold name_of. now rewrite Hat.
  - unfold sort_of. now rewrite Hat.
  - intros j w Hw Haw. destruct (Hix _ _ _ Hw Haw) as (_ & row' & Hrow' & Hslot').
    congruence.
Qed.

(** X5: an interpretation that fails leaves the environment as it was;
    only an accepted existential declaration can change it. *)
Theorem only_declarations_change (f : Formula) (e : VarEnv) (r : iresult) (e' : VarEnv) :
  interpret f e = Some (r, e') ->
  (is_ok r = false -> e' = e)
  /\ (e' <> e -> exists ty nm so h, f = E ty nm so /\ r = IResult_ok h).
Proof.
  intros Hi. apply interpret_cases in Hi as [[-> _]|(ty & nm & so & h & -> & _ & -> & _)].
  - split; [reflexivity|]. intros Hne. now destruct Hne.
  - split; [discriminate|]. intros _. now exists ty, nm, so, h.
Qed.

Lemma ext_num_vars_in e e' d : ext e e' -> (num_vars_in d e <= num_vars_in d e')%nat.
Proof.
  intros [_ Hr]. unfold num_vars_in.
  destruct (decide (d < 0 \/ Z.of_nat (length (avar2lvar e)) <= d)) as [|Hd]; [lia|].
  destruct (avar2lvar e !! Z.to_nat d) as [row|] eqn:Hrow; [|lia].
  destruct (Hr _ _ Hrow) as (row' & Hrow' & Hpre).
  apply lookup_lt_Some in Hrow' as Hlt.
  rewrite decide_False by lia. rewrite Hrow'. now apply prefix_length.
Qed.

Lemma ext_contains e e' av : ext e e' -> contains av e = true -> contains av e' = true.
Proof.
  intros [_ Hr]. unfold contains. destruct (is_untyped av); [discriminate|].
  intros H. apply andb_prop in H as [Hty H]. apply bool_decide_eq_true in Hty.
  destruct (avar2lvar e !! Z.to_nat (aty av)) as [row|] eqn:Hrow; [|discriminate].
  apply bool_decide_eq_true in H.
  destruct (Hr _ _ Hrow) as (row' & Hrow' & Hpre).
  apply lookup_lt_Some in Hrow' as Hlt. apply prefix_length in Hpre as Hlen.
  rewrite Hrow'. rewrite bool_decide_eq_true_2 by lia. simpl.
  apply bool_decide_eq_true_2. lia.
Qed.

Lemma ext_at_avar e e' av v :
  ext e e' -> at_avar av e = Some v ->
  exists v', at_avar av e' = Some v' /\ ext_var v v'.
Proof.
  intros [Hl Hr]. unfold at_avar.
  destruct (avar2lvar e !! Z.to_nat (aty av)) as [row|] eqn:Hrow; [|discriminate]. simpl.
  destruct (row !! Z.to_nat (vid av)) as [i|] eqn:Hi; [|discriminate]. simpl.
  intros Hv. destruct (Hr _ _ Hrow) as (row' & -> & Hpre). simpl.
  rewrite (prefix_lookup_Some _ _ _ _ Hi Hpre). simpl. now apply Hl.
Qed.

Lemma ext_lvar_index_of e e' nm i :
  ext e e' -> lvar_index_of nm e = Some i -> lvar_index_of nm e' = Some i.
Proof.
  intros [Hl _] Hi. apply lvar_index_of_Some in Hi as (v & Hv & Hname & Hmin).
  destruct (Hl _ _ Hv) as (v' & Hv' & Hn' & _).
  unfold lvar_index_of.
  assert (Hf : list_find (fun v0 => name v0 = nm) (lvars e') = Some (i, v')).
  { apply list_find_Some. split; [exact Hv'|]. split; [congruence|].
    intros j w Hw Hlt.
    assert (Hj : is_Some (lvars e !! j)).
    { apply lookup_lt_is_Some. apply lookup_lt_Some in Hv. lia. }
    destruct Hj as [w0 Hw0]. destruct (Hl _ _ Hw0) as (w' & Hw' & Hnw & _).
    rewrite Hw in Hw'. injection Hw' as <-. rewrite Hnw. now apply (Hmin j). }
  now rewrite Hf.
Qed.

(** X6: declarations never invalidate anything: the counts do not
    decrease, a handle accepted by [contains] stays accepted with the same
    name and sort, and a known name stays known with the same sort and its
    handles as a prefix of the new ones. *)
Theorem declarations_keep_handles (cs : list call) (e e' : VarEnv) :
  do_calls cs e = Some e' ->
  (num_vars e <= num_vars e')%nat
  /\ (num_abstract_doms e <= num_abstract_doms e')%nat
  /\ (forall d, (num_vars_in d e <= num_vars_in d e')%nat)
  /\ (forall av, contains av e = true -> contains av e' = true)
  /\ (forall av n, name_of av e = Some n -> name_of av e' = Some n)
  /\ (forall av so, sort_of av e = Some so -> sort_of av e' = Some so)
  /\ (forall x v, variable_of x e = Some v ->
        exists v', variable_of x e' = Some v' /\ sort v' = sort v
                   /\ avars v `prefix_of` avars v').
Proof.
  intros H. apply do_calls_preserved in H as [Hx _].
  pose proof Hx as [Hl Hr].
  split; [exact (ext_length _ _ _ Hl)|].
  split; [exact (ext_length _ _ _ Hr)|].
  split; [intros d; now apply ext_num_vars_in|].
  split; [intros av; now apply ext_contains|].
  split; [|split].
  - intros av n. unfold name_of.
    destruct (at_avar av e) as [v|] eqn:Hv; [|discriminate]. simpl. intros [= <-].
    destruct (ext_at_avar _ _ _ _ Hx Hv) as (v' & -> & Hn & _). simpl. now rewrite Hn.
  - intros av so. unfold sort_of.
    destruct (at_avar av e) as [v|] eqn:Hv; [|discriminate]. simpl. intros [= <-].
    destruct (ext_at_avar _ _ _ _ Hx Hv) as (v' & -> & _ & Hs & _). simpl. now rewrite Hs.
  - intros x v Hv. apply variable_of_Some in Hv as (i & Hi & Hv & _).
    destruct (Hl _ _ Hv) as (v' & Hv' & _ & Hs & Hp).
    exists v'. split; [|split; assumption].
    unfold variable_of. now rewrite (ext_lvar_index_of _ _ _ _ Hx Hi).
Qed.

Lemma reachable_call c e e' : reachable e -> do_call c e = Some e' -> reachable e'.
Proof.
  intros Hr Hc. apply reachable_decl_reachable.
  apply reachable_decl_reachable in Hr. eapply decl_reachable_call; eassumption.
Qed.

(** X7: in a reachable environment the handle an accepted declaration
    [(x, so, d)] returns is typed by [d], is what the occurrence of [x] in
    [d] and the resolved-handle occurrence give back, and is named [x] of
    sort [so]. *)
Theorem declared_handle_resolves (e : VarEnv) (d : AType) (x : string) (so : Sort)
    (h : AVar) (e' : VarEnv) :
  reachable e ->
  interpret (E d x so) e = Some (IResult_ok h, e') ->
  aty h = d
  /\ interpret (LV d x) e' = Some (IResult_ok h, e')
  /\ (forall ty, interpret (V ty h) e' = Some (IResult_ok h, e'))
  /\ name_of h e' = Some x
  /\ sort_of h e' = Some so.
Proof.
  intros Hr Hi.
  assert (Hr' : reachable e').
  { apply (reachable_call (Interpret (E d x so)) e); [exact Hr|]. unfold do_call. now rewrite Hi. }
  apply interpret_cases in Hi as [[_ Herr]|(ty & nm & so0 & h0 & Hf & Hty & Hh & Hs & Hd)].
  - specialize (Herr _ _ _ eq_refl). discriminate Herr.
  - injection Hf as <- <- <-. injection Hh as <-.
    destruct (declared_lookup _ _ _ _ _ _ Hty Hd) as (i & v1 & Hi & Hv1 & Hav & Hlen & Hso).
    destruct (lvar_index_of_Some _ _ _ Hi) as (w & Hw & Hname & _).
    rewrite Hv1 in Hw. injection Hw as <-.
    pose proof Hav as Hav'. apply avar_of_list_Some in Hav' as [Hin Haty].
    destruct (handle_resolves_aux e' i v1 h Hr' Hv1 Hin) as (Hc & _ & Hn & Hsort & _).
    split; [exact Haty|]. split; [|split; [|split]].
    + simpl. unfold interpret_lv, variable_of. rewrite Hi, Hv1.
      rewrite decide_True by (unfold UNTYPED; lia). now rewrite Hav.
    + intros ty. simpl. now rewrite Hc.
    + now rewrite Hn, Hname.
    + rewrite Hsort. f_equal.
      destruct Hso as [Hso|(v & Hv & Hso)]; [exact Hso|]. rewrite Hso. now apply Hs.
Qed.

Lemma declared_fresh a nm so e :
  0 <= a -> variable_of nm e = None ->
  exists e1,
    let h := mkAVar a (Z.of_nat (num_vars_in a e)) in
    declared a nm so e = Some (h, e1)
    /\ lvar_index_of nm e1 = Some (length (lvars e))
    /\ variable_of nm e1 = Some (mkVariable nm so [h]).
Proof.
  intros Ha Hn. apply variable_of_None in Hn.
  unfold declared. rewrite Hn. eexists. cbn zeta. split; [reflexivity|].
  unfold push_index; cbn [lvars avar2lvar].
  assert (Hi : lvar_index_of nm
                 (mkVarEnv (lvars e ++ [mkVariable nm so [mkAVar a (Z.of_nat (num_vars_in a e))]])
                    (alter (fun row => row ++ [length (lvars e)]) (Z.to_nat a)
                       (avar2lvar (grown a e))))
               = Some (length (lvars e))) by now apply lvar_index_of_snoc.
  split; [exact Hi|]. unfold variable_of. rewrite Hi. cbn [lvars].
  rewrite lookup_app_r by lia. now rewrite Nat.sub_diag.
Qed.

Lemma declared_second_domain a nm so e i v :
  0 <= a -> lvar_index_of nm e = Some i -> lvars e !! i = Some v -> avar_of v a = None ->
  exists e1,
    let h := mkAVar a (Z.of_nat (num_vars_in a e)) in
    declared a nm so e = Some (h, e1)
    /\ variable_of nm e1 = Some (mkVariable (name v) (sort v) (avars v ++ [h])).
Proof.
  intros Ha Hi Hv Hav. unfold declared. rewrite Hi, Hv, Hav.
  eexists. cbn zeta. split; [reflexivity|].
  unfold push_index, push_avar; cbn [lvars avar2lvar]. rewrite lvars_grown.
  unfold variable_of. rewrite lvar_index_of_alter by reflexivity. rewrite Hi.
  cbn [lvars]. now rewrite list_lookup_alter_eq, Hv.
Qed.

(** X8: a fresh name declared in one domain resolves untyped to its
    handle; declaring it in a second domain with another sort is a sort
    mismatch that changes nothing; with the same sort it gets a second
    handle, after which the untyped occurrence is ambiguous while the
    occurrences typed by either domain give the respective handle. *)
Theorem occurrence_resolution (e : VarEnv) (x : string) (so so' : Sort) (d1 d2 : AType) :
  variable_of x e = None -> 0 <= d1 -> 0 <= d2 -> d1 <> d2 -> so' <> so ->
  exists h1 e1 h2 e2,
    interpret (E d1 x so) e = Some (IResult_ok h1, e1)
    /\ interpret (LV UNTYPED x) e1 = Some (IResult_ok h1, e1)
    /\ interpret (E d2 x so') e1
       = Some (IResult_error (err_sort_mismatch x (E d2 x so')), e1)
    /\ interpret (E d2 x so) e1 = Some (IResult_ok h2, e2)
    /\ aty h1 = d1 /\ aty h2 = d2
    /\ variable_of x e2 = Some (mkVariable x so [h1; h2])
    /\ interpret (LV UNTYPED x) e2
       = Some (IResult_error (err_ambiguous x (LV UNTYPED x)), e2)
    /\ interpret (LV d1 x) e2 = Some (IResult_ok h1, e2)
    /\ interpret (LV d2 x) e2 = Some (IResult_ok h2, e2).
Proof.
  intros Hn H1 H2 Hd Hso.
  destruct (declared_fresh d1 x so e H1 Hn) as (e1 & Hdecl1 & Hi1 & Hv1). cbn zeta in *.
  set (h1 := mkAVar d1 (Z.of_nat (num_vars_in d1 e))) in *.
  destruct (variable_of_Some _ _ _ Hv1) as (i & Hi & Hl1 & _).
  assert (Hav : avar_of (mkVariable x so [h1]) d2 = None).
  { unfold avar_of; simpl. now rewrite decide_False. }
  destruct (declared_second_domain d2 x so e1 i _ H2 Hi Hl1 Hav) as (e2 & Hdecl2 & Hv2).
  cbn zeta in *. cbn [name sort avars app] in Hv2.
  set (h2 := mkAVar d2 (Z.of_nat (num_vars_in d2 e1))) in *.
  exists h1, e1, h2, e2.
  split.
  { rewrite interpret_existential_typed; [now rewrite Hdecl1|exact H1|].
    intros var Hvar. rewrite Hn in Hvar. discriminate Hvar. }
  split.
  { simpl. unfold interpret_lv. rewrite Hv1.
    rewrite decide_False by (intros Hc; now apply Hc). reflexivity. }
  split.
  { simpl. unfold interpret_existential.
    rewrite decide_False by (unfold UNTYPED; lia). rewrite Hv1. simpl.
    rewrite decide_True; [reflexivity|]. intros Hc. now apply Hso. }
  split.
  { rewrite interpret_existential_typed; [now rewrite Hdecl2|exact H2|].
    intros var Hvar. rewrite Hv1 in Hvar. now injection Hvar as <-. }
  split; [reflexivity|]. split; [reflexivity|]. split; [exact Hv2|].
  split.
  { simpl. unfold interpret_lv. rewrite Hv2.
    rewrite decide_False by (intros Hc; now apply Hc). reflexivity. }
  split.
  { simpl. unfold interpret_lv. rewrite Hv2.
    rewrite decide_True by (unfold UNTYPED; lia).
    unfold avar_of; simpl. now rewrite decide_True. }
  simpl. unfold interpret_lv. rewrite Hv2.
  rewrite decide_True by (unfold UNTYPED; lia).
  unfold avar_of; simpl. rewrite decide_False by exact Hd. now rewrite decide_True.
Qed.

Lemma sizes_after_resize {A : Type} (g : A -> nat -> A) (size : A -> nat)
    (l : list A) (sn : list nat) :
  (forall x k, size (g x k) = k) -> (length sn <= length l)%nat ->
  size <$> zip_with g (take (length sn) l) sn = sn.
Proof.
  intros Hg Hlen. apply list_eq. intros i.
  rewrite list_lookup_fmap, lookup_zip_with.
  destruct (sn !! i) as [k|] eqn:Hk.
  - apply lookup_lt_Some in Hk as Hi.
    rewrite lookup_take_lt by exact Hi.
    destruct (lookup_lt_is_Some_2 l i ltac:(lia)) as [x ->]. simpl. now rewrite Hg.
  - now destruct (take (length sn) l !! i).
Qed.

(** X9: [restore] returns exactly when the snapshot has no more records
    and no more domains than the environment; the environment it returns
    has the snapshot as its snapshot (also where [resize] had to pad), and
    its records keep their position, name and sort. *)
Theorem restore_reaches_snapshot (snap : snapshot_type) (e : VarEnv) :
  (is_Some (restore snap e)
   <-> (length (lvars_snap snap) <= num_vars e)%nat
       /\ (length (avar2lvar_snap snap) <= num_abstract_doms e)%nat)
  /\ forall e', restore snap e = Some e' ->
       snapshot e' = snap
       /\ num_vars e' = length (lvars_snap snap)
       /\ num_abstract_doms e' = length (avar2lvar_snap snap)
       /\ (forall i v', lvars e' !! i = Some v' ->
             exists v, lvars e !! i = Some v /\ name v' = name v /\ sort v' = sort v).
Proof.
  unfold restore, num_vars, num_abstract_doms. split.
  - destruct (decide _) as [Hd|Hd].
    + split; [intros _; exact Hd|intros _; eauto].
    + split; [intros [? Hc]; discriminate Hc|intros Hc; now destruct Hd].
  - intros e'. destruct (decide _) as [[Hl Hr]|]; [|discriminate]. intros [= <-].
    cbn [lvars avar2lvar]. split; [|split; [|split]].
    + unfold snapshot; cbn [lvars avar2lvar]. destruct snap as [sl sr]. cbn in *. f_equal.
      * apply sizes_after_resize; [|exact Hl]. intros x k. cbn. apply length_resize.
      * apply sizes_after_resize; [|exact Hr]. intros x k. apply length_resize.
    + rewrite length_zip_with, length_take. lia.
    + rewrite length_zip_with, length_take. lia.
    + intros i v' Hv'. apply lookup_zip_with_Some in Hv' as (v & k & -> & Hv & _).
      apply lookup_take_Some in Hv as [Hv _]. exists v. auto.
Qed.

(** X10: [contains] accepts a handle exactly when its domain exists and
    its slot is below [num_vars_in] of that domain; the resolved-handle
    occurrence then returns it, and is the undeclared-abstract-variable
    error otherwise; the environment is unchanged. *)
Theorem resolved_handle_occurrence (e : VarEnv) (ty : AType) (av : AVar) :
  (contains av e = true
   <-> 0 <= aty av < Z.of_nat (num_abstract_doms e)
       /\ 0 <= vid av < Z.of_nat (num_vars_in (aty av) e))
  /\ interpret (V ty av) e
     = Some (if contains av e then IResult_ok av
             else IResult_error (err_undeclared_avar av (V ty av)), e).
Proof.
  split.
  - unfold contains, is_untyped, num_vars_in, num_abstract_doms, UNTYPED.
    destruct (bool_decide (aty av = -1)) eqn:Hu.
    + apply bool_decide_eq_true in Hu. split; [discriminate|lia].
    + apply bool_decide_eq_false in Hu.
      destruct (decide (0 <= aty av < Z.of_nat (length (avar2lvar e)))) as [Hty|Hty].
      * rewrite bool_decide_eq_true_2 by exact Hty. rewrite decide_False by lia. simpl.
        destruct (avar2lvar e !! Z.to_nat (aty av)) as [row|] eqn:Hrow.
        -- rewrite bool_decide_eq_true. split; [auto|now intros [_ ?]].
        -- split; [discriminate|]. simpl. lia.
      * rewrite bool_decide_eq_false_2 by exact Hty. simpl. split; [discriminate|lia].
  - simpl. now destruct (contains av e).
Qed.

(** X1: snapshots and restores used as an undo stack create no new state:
    an environment is reachable exactly when declarations alone build it
    from the empty environment. *)
Theorem reachable_iff_declarations (e : VarEnv) :
  reachable e <-> decl_reachable e.
Proof. apply reachable_decl_reachable. Qed.

(** X4: in a reachable environment every handle of a record is accepted by
    [contains], [operator[]] on it gives that record, [name_of] and
    [sort_of] its name and sort, and no other record owns the handle. *)
Theorem reachable_handle_resolves (e : VarEnv) (i : nat) (v : variable_type) (av : AVar) :
  reachable e -> lvars e !! i = Some v -> av ∈ avars v ->
  contains av e = true
  /\ at_avar av e = Some v
  /\ name_of av e = Some (name v)
  /\ sort_of av e = Some (sort v)
  /\ forall j w, lvars e !! j = Some w -> av ∈ avars w -> j = i.
Proof. apply handle_resolves_aux. Qed.

Lemma two_handles_reachable : reachable two_handles.
Proof.
  exists [Call (Interpret (E 3 "x" Bool)); Call (Interpret (E 5 "x" Bool))],
         (mkSession two_handles []).
  split; reflexivity.
Qed.

Lemma reachable_name_lookup_witness :
  variable_of "x" two_handles = Some (mkVariable "x" Bool [mkAVar 3 0; mkAVar 5 0]).
Proof.
  exact (proj2 (reachable_name_lookup two_handles two_handles_reachable)
           (mkVariable "x" Bool [mkAVar 3 0; mkAVar 5 0])
           ltac:(apply list_elem_of_here)).
Defined.

Lemma reachable_handles_per_record_witness :
  avar_of (mkVariable "x" Bool [mkAVar 3 0; mkAVar 5 0]) 5 = Some (mkAVar 5 0).
Proof.
  exact (proj2 (proj2 (reachable_handles_per_record two_handles two_handles_reachable
                         (mkVariable "x" Bool [mkAVar 3 0; mkAVar 5 0])
                         ltac:(apply list_elem_of_here)))
           (mkAVar 5 0) ltac:(apply list_elem_of_further, list_elem_of_here)).
Defined.

Lemma reachable_handle_resolves_witness :
  contains (mkAVar 5 0) two_handles = true
  /\ name_of (mkAVar 5 0) two_handles = Some "x".
Proof.
  destruct (reachable_handle_resolves two_handles 0%nat
              (mkVariable "x" Bool [mkAVar 3 0; mkAVar 5 0]) (mkAVar 5 0)
              two_handles_reachable eq_refl
              ltac:(apply list_elem_of_further, list_elem_of_here))
    as (Hc & _ & Hn & _).
  split; assumption.
Defined.

Lemma only_declarations_change_witness :
  exists r e',
    interpret (E 0 "x" Int) one_var = Some (r, e') /\ is_ok r = false /\ e' = one_var.
Proof.
  eexists _, _. split; [vm_compute; reflexivity|]. split; [reflexivity|].
  exact (proj1 (only_declarations_change (E 0 "x" Int) one_var _ _
                  ltac:(vm_compute; reflexivity)) eq_refl).
Defined.

Lemma declarations_keep_handles_witness :
  exists e',
    do_calls [Interpret (E 1 "y" Int); NewDomain; Interpret (E 1 "x" Bool)] one_var = Some e'
    /\ contains (mkAVar 0 0) e' = true
    /\ name_of (mkAVar 0 0) e' = Some "x".
Proof.
  eexists. split; [vm_compute; reflexivity|].
  destruct (declarations_keep_handles
              [Interpret (E 1 "y" Int); NewDomain; Interpret (E 1 "x" Bool)] one_var _
              ltac:(vm_compute; reflexivity))
    as (_ & _ & _ & Hc & Hn & _).
  split; [exact (Hc (mkAVar 0 0) eq_refl)|exact (Hn (mkAVar 0 0) "x" eq_refl)].
Defined.

Lemma one_var_reachable : reachable one_var.
Proof.
  exists [Call (Interpret (E 0 "x" Bool))], (mkSession one_var []). split; reflexivity.
Qed.

Lemma declared_handle_resolves_witness :
  exists e',
    interpret (E 2 "y" Int) one_var = Some (IResult_ok (mkAVar 2 0), e')
    /\ interpret (LV 2 "y") e' = Some (IResult_ok (mkAVar 2 0), e')
    /\ name_of (mkAVar 2 0) e' = Some "y".
Proof.
  eexists. split; [vm_compute; reflexivity|].
  destruct (declared_handle_resolves one_var 2 "y" Int (mkAVar 2 0) _ one_var_reachable
              ltac:(vm_compute; reflexivity))
    as (_ & Hlv & _ & Hn & _).
  split; assumption.
Defined.

Lemma occurrence_resolution_witness :
  exists h1 e1 h2 e2,
    interpret (E 3 "y" Bool) one_var = Some (IResult_ok h1, e1)
    /\ interpret (LV UNTYPED "y") e1 = Some (IResult_ok h1, e1)
    /\ interpret (E 5 "y" Bool) e1 = Some (IResult_ok h2, e2)
    /\ interpret (LV UNTYPED "y") e2
       = Some (IResult_error (err_ambiguous "y" (LV UNTYPED "y")), e2).
Proof.
  destruct (occurrence_resolution one_var "y" Bool Int 3 5 eq_refl
              ltac:(lia) ltac:(lia) ltac:(lia) ltac:(discriminate))
    as (h1 & e1 & h2 & e2 & Ha & Hb & _ & Hc & _ & _ & _ & Hd & _).
  exists h1, e1, h2, e2. repeat split; assumption.
Defined.

End EnvMoreFacts.

(** * Diagnostics, Boolean and integer lattices: further laws *)
Section MoreFacts.

(** X11: the converting constructor is functorial (identity, composition),
    keeps [is_ok], commutes with [push_warning], and maps a success to the
    converted success and an error to itself. *)
Theorem convert_functor_laws {T U W : Type} (f : T -> U) (g : U -> W)
    (r : IResult T) (w : IError) (d : T) :
  IResult_convert (fun x => x) r = r
  /\ IResult_convert g (IResult_convert f r) = IResult_convert (fun x => g (f x)) r
  /\ is_ok (IResult_convert f r) = is_ok r
  /\ IResult_convert f (push_warning r w) = push_warning (IResult_convert f r) w
  /\ IResult_convert f (IResult_ok d) = IResult_ok (f d)
  /\ IResult_convert f (IResult_error w) = IResult_error w.
Proof.
  destruct r as [[v|err] ws]; repeat split.
Qed.

Lemma bool_lattice_laws (U : Universe.PreUniverse bool) :
  @Universe.in_universe _ U = (fun _ => True) ->
  @Universe.bot _ U = false -> @Universe.top _ U = true ->
  @Universe.join _ U = orb -> @Universe.meet _ U = andb ->
  @Universe.order _ U = (fun x y => negb x || y) ->
  @Universe.strict_order _ U = (fun x y => negb x && y) ->
  Universe.lattice_laws U.
Proof.
  intros Hin Hb Ht Hj Hm Ho Hs. unfold Universe.lattice_laws.
  rewrite Hin, Hb, Ht, Hj, Hm, Ho, Hs. split; [split; exact I|].
  intros x y z _ _ _.
  destruct x, y, z; simpl; repeat split; auto; try discriminate;
    try (intros [? ?]; congruence); try (intros ?; congruence).
Qed.

(** X12: [PreB] and [PreBInc] are bounded lattices: [join] and [meet] are
    idempotent, commutative, associative and absorb each other, [bot] and
    [top] are the extremes, [order] holds exactly when the join is the
    right argument (the meet the left one), [strict_order] is [order]
    without equality, and the order is total. *)
Theorem Boolean_lattice_laws :
  Universe.lattice_laws PreB.universe /\ Universe.lattice_laws PreBInc.universe.
Proof. split; now apply bool_lattice_laws. Qed.

Import ZUniverse.

Lemma inc_bounds (L : Limits) (sign : Sign) :
  limits_bot L <= 0 <= limits_top L -> inc_bot L sign <= inc_top L sign.
Proof. intros H. unfold inc_bot, inc_top. destruct sign; lia. Qed.

Lemma dec_bounds (L : Limits) (sign : Sign) :
  limits_bot L <= 0 <= limits_top L -> dec_top L sign <= dec_bot L sign.
Proof. intros H. unfold dec_bot, dec_top. destruct sign; lia. Qed.

(** X15: with limits on each side of zero, [ZIncUniverse] and
    [ZDecUniverse] are bounded lattices on the values from [bot] to [top],
    for every sign. *)
Theorem integer_lattice_laws (L : Limits) (sign : Sign) :
  limits_bot L <= 0 <= limits_top L ->
  Universe.lattice_laws (inc_universe L sign)
  /\ Universe.lattice_laws (dec_universe L sign).
Proof.
  intros HL. pose proof (inc_bounds L sign HL) as Hi. pose proof (dec_bounds L sign HL) as Hd.
  split; (split; [simpl; lia|]); intros x y z Hx Hy Hz; simpl in *.
  - unfold inc_join, inc_meet, inc_order, inc_strict_order.
    rewrite !Z.leb_le, Z.ltb_lt. repeat split; lia.
  - unfold dec_join, dec_meet, dec_order, dec_strict_order.
    rewrite !Z.geb_le, Z.gtb_lt. repeat split; lia.
Qed.

Lemma integer_lattice_laws_witness :
  Universe.lattice_laws (inc_universe int32_limits SIGNED)
  /\ Universe.lattice_laws (dec_universe int32_limits SPOS).
Proof.
  split.
  - exact (proj1 (integer_lattice_laws int32_limits SIGNED ltac:(vm_compute; split; discriminate))).
  - exact (proj2 (integer_lattice_laws int32_limits SPOS ltac:(vm_compute; split; discriminate))).
Defined.

Import ZTotalOrder.

Lemma dual_facts (L : Limits) (dir : direction) (sign : Sign) :
  dual (bot L dir sign) = top L (dual_direction dir) sign
  /\ dual (top L dir sign) = bot L (dual_direction dir) sign
  /\ (forall v, dual (dual v) = v)
  /\ (forall x y, U_join dir x y = U_meet (dual_direction dir) (dual x) (dual y))
  /\ (forall x y, U_meet dir x y = U_join (dual_direction dir) (dual x) (dual y))
  /\ (forall x y, U_order dir x y = U_order (dual_direction dir) (dual y) (dual x))
  /\ (forall x y, U_strict_order dir x y
                  = U_strict_order (dual_direction dir) (dual y) (dual x))
  /\ (forall v, is_top L dir sign v = is_bot L (dual_direction dir) sign (dual v)).
Proof.
  unfold dual, bot, top, is_top, is_bot, U_bot, U_top, U_join, U_meet, U_order, U_strict_order.
  destruct dir; simpl; repeat split; intros;
    unfold inc_order, dec_order, inc_strict_order, dec_strict_order;
    try reflexivity;
    rewrite ?Z.geb_leb, ?Z.gtb_ltb; reflexivity.
Qed.

Lemma tell_facts (dir : direction) (this other : Z) (has_changed : bool) :
  let r := tell dir this other has_changed in
  fst r = U_join dir this other
  /\ snd r = (has_changed || negb (bool_decide (fst r = this)))
  /\ U_order dir this (fst r) = true
  /\ U_order dir other (fst r) = true
  /\ tell dir (fst r) other (snd r) = r
  /\ (forall o2 c, fst (tell dir (fst (tell dir this other c)) o2 c)
                   = fst (tell dir (fst (tell dir this o2 c)) other c)).
Proof.
  assert (Hj : forall a b c, fst (tell dir a b c) = U_join dir a b).
  { intros a b c. unfold tell, U_strict_order, U_join.
    destruct dir; unfold inc_strict_order, dec_strict_order, inc_join, dec_join.
    - destruct (Z.ltb_spec a b); simpl; lia.
    - rewrite Z.gtb_ltb. destruct (Z.ltb_spec b a); simpl; lia. }
  cbn zeta. split; [apply Hj|]. split; [|split; [|split; [|split]]].
  - unfold tell, U_strict_order.
    destruct dir; unfold inc_strict_order, dec_strict_order; rewrite ?Z.gtb_ltb.
    + destruct (Z.ltb_spec this other); simpl.
      * rewrite bool_decide_eq_false_2 by lia. now rewrite orb_true_r.
      * rewrite bool_decide_eq_true_2 by reflexivity. now rewrite orb_false_r.
    + destruct (Z.ltb_spec other this); simpl.
      * rewrite bool_decide_eq_false_2 by lia. now rewrite orb_true_r.
      * rewrite bool_decide_eq_true_2 by reflexivity. now rewrite orb_false_r.
  - rewrite Hj. unfold U_order, U_join.
    destruct dir; unfold inc_order, dec_order, inc_join, dec_join;
      rewrite ?Z.geb_leb; apply Z.leb_le; lia.
  - rewrite Hj. unfold U_order, U_join.
    destruct dir; unfold inc_order, dec_order, inc_join, dec_join;
      rewrite ?Z.geb_leb; apply Z.leb_le; lia.
  - unfold tell, U_strict_order.
    destruct dir; unfold inc_strict_order, dec_strict_order; rewrite ?Z.gtb_ltb.
    + destruct (Z.ltb_spec this other); simpl.
      * now rewrite Z.ltb_irrefl.
      * destruct (Z.ltb_spec this other); [lia|reflexivity].
    + destruct (Z.ltb_spec other this); simpl.
      * now rewrite Z.ltb_irrefl.
      * destruct (Z.ltb_spec other this); [lia|reflexivity].
  - intros o2 c. rewrite !Hj. unfold U_join.
    destruct dir; unfold inc_join, dec_join; lia.
Qed.

(** X18: [dtell] leaves the meet in the receiver, below both, with the
    same handling of [has_changed]; it is [tell] in the dual universe. *)
Theorem dtell_is_meet (dir : direction) (this other : Z) (has_changed : bool) :
  let r := dtell dir this other has_changed in
  fst r = U_meet dir this other
  /\ snd r = (has_changed || negb (bool_decide (fst r = this)))
  /\ U_order dir (fst r) this = true
  /\ U_order dir (fst r) other = true
  /\ r = tell (dual_direction dir) this other has_changed.
Proof.
  assert (Hd : dtell dir this other has_changed
               = tell (dual_direction dir) this other has_changed).
  { unfold dtell, tell, U_strict_order.
    destruct dir; unfold inc_strict_order, dec_strict_order, dual_direction;
      now rewrite Z.gtb_ltb. }
  cbn zeta. rewrite Hd.
  destruct (tell_facts (dual_direction dir) this other has_changed)
    as (Hj & Hc & Ho1 & Ho2 & _). cbn zeta in *.
  destruct (dual_facts (mkLimits 0 0) (dual_direction dir) SIGNED)
    as (_ & _ & _ & Hjm & _ & Hord & _).
  assert (Hdd : dual_direction (dual_direction dir) = dir) by now destruct dir.
  rewrite Hdd in *. unfold dual in *.
  split; [now rewrite Hj, Hjm|]. split; [exact Hc|].
  split; [now rewrite <- Hord|]. split; [now rewrite <- Hord|reflexivity].
Qed.

(** X16: [dual] keeps the value and reads it in the other universe: [bot]
    becomes [top], [join] becomes [meet], the orders are reversed, and
    taking the dual twice gives the element back. *)
Theorem dual_total_order (L : Limits) (dir : direction) (sign : Sign) :
  dual (bot L dir sign) = top L (dual_direction dir) sign
  /\ dual (top L dir sign) = bot L (dual_direction dir) sign
  /\ (forall v, dual (dual v) = v)
  /\ (forall x y, U_join dir x y = U_meet (dual_direction dir) (dual x) (dual y))
  /\ (forall x y, U_meet dir x y = U_join (dual_direction dir) (dual x) (dual y))
  /\ (forall x y, U_order dir x y = U_order (dual_direction dir) (dual y) (dual x))
  /\ (forall x y, U_strict_order dir x y
                  = U_strict_order (dual_direction dir) (dual y) (dual x))
  /\ (forall v, is_top L dir sign v = is_bot L (dual_direction dir) sign (dual v)).
Proof. apply dual_facts. Qed.

(** X17: [tell] leaves the join of the receiver and the argument in the
    receiver, above both; it raises [has_changed] exactly when the value
    changed and never lowers it; telling the same again changes nothing,
    and the order of two tells does not matter for the value. *)
Theorem tell_is_join (dir : direction) (this other : Z) (has_changed : bool) :
  let r := tell dir this other has_changed in
  fst r = U_join dir this other
  /\ snd r = (has_changed || negb (bool_decide (fst r = this)))
  /\ U_order dir this (fst r) = true
  /\ U_order dir other (fst r) = true
  /\ tell dir (fst r) other (snd r) = r
  /\ (forall o2 c, fst (tell dir (fst (tell dir this other c)) o2 c)
                   = fst (tell dir (fst (tell dir this o2 c)) other c)).
Proof. apply tell_facts. Qed.

Ltac bool_arith :=
  rewrite ?Z.gtb_ltb, ?Z.geb_leb;
  rewrite ?andb_true_iff, ?andb_false_iff, ?Z.ltb_lt, ?Z.leb_le, ?Z.ltb_ge, ?Z.leb_gt.

(** X19: with limits on each side of zero, [check] accepts the elements of
    the universe that are not an infinite bound (nothing is checked for
    [BOUNDED]), except that the decreasing universe of sign [SNEG] accepts
    no value at all; on an accepted element of an increasing universe
    [next] stays in the universe and is the successor unless the element
    is [top]. *)
Theorem check_accepts_finite_elements (L : Limits) (i : Z) :
  limits_bot L <= 0 <= limits_top L ->
  (U_check L Inc SIGNED i = true <-> limits_bot L < i < limits_top L)
  /\ (U_check L Inc SPOS i = true <-> 0 <= i < limits_top L)
  /\ (U_check L Inc SNEG i = true <-> limits_bot L < i <= 0)
  /\ (U_check L Dec SIGNED i = true <-> limits_bot L < i < limits_top L)
  /\ (U_check L Dec SPOS i = true <-> 0 <= i < limits_top L)
  /\ U_check L Dec SNEG i = false
  /\ (forall dir, U_check L dir BOUNDED i = true)
  /\ (forall sign, sign <> BOUNDED -> U_check L Inc sign i = true ->
        inc_bot L sign <= i <= inc_top L sign
        /\ inc_bot L sign <= inc_next L sign i <= inc_top L sign
        /\ (i <> inc_top L sign -> inc_next L sign i = i + 1)).
Proof.
  intros HL.
  unfold U_check, U_order, U_strict_order, U_bot, U_top,
    inc_order, inc_strict_order, dec_order, dec_strict_order,
    inc_bot, inc_top, dec_bot, dec_top.
  split; [bool_arith; lia|]. split; [bool_arith; lia|]. split; [bool_arith; lia|].
  split; [bool_arith; lia|]. split; [bool_arith; lia|]. split; [bool_arith; lia|].
  split; [now intros []|].
  intros sign Hs Hc. unfold inc_next, inc_bot, inc_top.
  destruct sign; try congruence; revert Hc; bool_arith; intros Hc;
    repeat match goal with
           | |- context [bool_decide ?P] => destruct (bool_decide_reflect P)
           end; simpl; lia.
Qed.

Lemma check_accepts_finite_elements_witness :
  U_check int32_limits Inc SIGNED 10 = true
  /\ U_check int32_limits Inc SIGNED (- 2 ^ 31) = false
  /\ U_check int32_limits Inc SIGNED (2 ^ 31 - 1) = false.
Proof.
  destruct (check_accepts_finite_elements int32_limits 10
              ltac:(vm_compute; split; discriminate)) as (H10 & _).
  split; [apply H10; vm_compute; split; reflexivity|].
  split; reflexivity.
Defined.

(** X13: [PreB::fun] is defined exactly on AND, OR, IMPLY, EQUIV, XOR, all
    declared supported and order preserving; undualized, AND is [meet], OR
    is [join] and IMPLY is [order]; dualizing exchanges AND and OR, turns
    IMPLY into its converse and leaves EQUIV and XOR alone; only IMPLY
    depends on the order of its arguments; AND and OR are monotone in both
    arguments.  [is_supported_fun] and [is_order_preserving] accept the
    same signatures: these five and, besides, EQ and NEQ, on which [fun]
    is not defined; NOT and the comparisons are refused by all three. *)
Theorem PreB_fun_laws (sig : Sig) (dualize : bool) (x y : bool) :
  (is_Some (PreB.fun_ sig dualize x y)
   <-> sig = AND \/ sig = OR \/ sig = IMPLY \/ sig = EQUIV \/ sig = XOR)
  /\ (is_Some (PreB.fun_ sig dualize x y) ->
        PreB.is_supported_fun sig = true /\ PreB.is_order_preserving sig = true)
  /\ (PreB.fun_ AND false x y = Some (PreB.meet x y)
      /\ PreB.fun_ OR false x y = Some (PreB.join x y)
      /\ PreB.fun_ IMPLY false x y = Some (PreB.order x y)
      /\ PreB.fun_ XOR false x y = Some (PreB.strict_order x y || PreB.strict_order y x))
  /\ (PreB.fun_ AND true x y = PreB.fun_ OR false x y
      /\ PreB.fun_ OR true x y = PreB.fun_ AND false x y
      /\ PreB.fun_ IMPLY true x y = PreB.fun_ IMPLY false y x
      /\ PreB.fun_ EQUIV true x y = PreB.fun_ EQUIV false x y
      /\ PreB.fun_ XOR true x y = PreB.fun_ XOR false x y)
  /\ (PreB.fun_ sig dualize x y = PreB.fun_ sig dualize y x
      <-> sig <> IMPLY \/ x = y)
  /\ (forall x' y' v v',
        sig = AND \/ sig = OR ->
        PreB.order x x' = true -> PreB.order y y' = true ->
        PreB.fun_ sig dualize x y = Some v -> PreB.fun_ sig dualize x' y' = Some v' ->
        PreB.order v v' = true)
  /\ (PreB.is_supported_fun sig = true
      <-> sig = AND \/ sig = OR \/ sig = IMPLY \/ sig = EQUIV \/ sig = XOR
          \/ sig = EQ \/ sig = NEQ)
  /\ PreB.is_order_preserving sig = PreB.is_supported_fun sig
  /\ (PreB.is_supported_fun EQ = true /\ PreB.is_order_preserving EQ = true
      /\ PreB.fun_ EQ dualize x y = None)
  /\ (PreB.is_supported_fun NEQ = true /\ PreB.is_order_preserving NEQ = true
      /\ PreB.fun_ NEQ dualize x y = None)
  /\ (PreB.is_supported_fun sig = false ->
        PreB.is_order_preserving sig = false /\ PreB.fun_ sig dualize x y = None).
Proof.
  split; [|split; [|split; [|split; [|split; [|split; [|split; [|split; [|split; [|split]]]]]]]]].
  - destruct sig; simpl; split; intros H;
      try (destruct H as [? H]; discriminate H); eauto;
      try (destruct H as [H|[H|[H|[H|H]]]]; discriminate H).
  - destruct sig; simpl; intros [? H]; try discriminate H; split; reflexivity.
  - destruct x, y; repeat split.
  - destruct x, y; repeat split.
  - destruct sig, dualize, x, y; simpl; split; intros H; auto;
      try discriminate H; try (left; discriminate);
      try (destruct H as [H|H]; [now destruct H|discriminate H]).
  - intros x' y' v v' [-> | ->] Hx Hy;
      destruct dualize, x, y, x', y'; simpl in *;
      intros [= <-] [= <-]; try reflexivity; discriminate.
  - destruct sig; simpl; split; intros H; try discriminate H; try reflexivity;
      try tauto;
      destruct H as [H|[H|[H|[H|[H|[H|H]]]]]]; discriminate H.
  - destruct sig; reflexivity.
  - repeat split.
  - repeat split.
  - destruct sig; simpl; intros H; try discriminate H; split; reflexivity.
Qed.

Lemma PreB_fun_laws_witness :
  PreB.is_supported_fun IMPLY = true
  /\ PreB.fun_ IMPLY true false true = Some false.
Proof.
  destruct (PreB_fun_laws IMPLY true false true) as (_ & Hs & _ & (_ & _ & Hi & _) & _).
  split; [exact (proj1 (Hs ltac:(eexists; reflexivity)))|exact Hi].
Defined.

(** X14: [PreB::interpret_type] asserts that its formula is an
    existential declaration: on any other formula the call does not
    return.  On a declaration [E ty vname cty] it returns, and returns
    [true] exactly when the declared sort [cty] is [Bool], then with the
    least element of the order in use ([bot], or [top] when dualized) in
    [k] and the diagnostics untouched; otherwise [k] is untouched and the
    error naming [vname] is recorded when [diagnose] is set, nothing at
    all when it is not. *)
Theorem PreB_interpret_type_spec (diagnose dualize : bool) (f : Formula) (s : Stmt.store) :
  (forall ty vname cty, f = E ty vname cty ->
     exists r s',
       PreB.interpret_type diagnose dualize f s = Some (r, s')
       /\ (r = true <-> cty = Bool)
       /\ (r = true ->
             Stmt.tell s' = (if dualize then PreB.top else PreB.bot)
             /\ Stmt.diagnostics s' = Stmt.diagnostics s
             /\ forall v, (if dualize then PreB.order v (Stmt.tell s')
                           else PreB.order (Stmt.tell s') v) = true)
       /\ (r = false ->
             Stmt.tell s' = Stmt.tell s
             /\ (diagnose = false -> s' = s)
             /\ (diagnose = true ->
                   Stmt.diagnostics s'
                   = add_suberror (Stmt.diagnostics s)
                       (IError_make true PreB.name
                          ("The type of `" +:+ vname
                             +:+ "` can only be `Bool` when interpreted in Boolean domains.")
                          f))))
  /\ ((forall ty vname cty, f <> E ty vname cty) ->
        PreB.interpret_type diagnose dualize f s = None).
Proof.
  split.
  - intros ty vname cty ->.
    unfold PreB.interpret_type, Stmt.call, Stmt.if_.
    destruct (bool_decide (cty = Bool)) eqn:Hc.
    + apply bool_decide_eq_true in Hc. eexists _, _. split; [reflexivity|].
      split; [tauto|]. split; [|discriminate].
      intros _. simpl. split; [reflexivity|]. split; [reflexivity|].
      intros v. destruct dualize, v; reflexivity.
    + apply bool_decide_eq_false in Hc. eexists _, _. split; [reflexivity|].
      split; [split; [discriminate|contradiction]|]. split; [discriminate|].
      intros _. destruct diagnose; simpl.
      * split; [reflexivity|]. split; [discriminate|]. intros _. reflexivity.
      * split; [reflexivity|]. split; [reflexivity|discriminate].
  - intros Hne. destruct f; try reflexivity.
    exfalso. exact (Hne _ _ _ eq_refl).
Qed.

(** A run of [PreB_interpret_type_spec]: an integer declaration is refused
    with one recorded error, and a constant is not a declaration. *)
Lemma PreB_interpret_type_spec_witness :
  let s := Stmt.mkStore true (IError_make true "B" "top" (B UNTYPED true)) in
  (exists s', PreB.interpret_type true false (E 0 "x" Int) s = Some (false, s')
              /\ Stmt.tell s' = true)
  /\ PreB.interpret_type true false (B 0 true) s = None.
Proof.
  cbn zeta. split.
  - destruct (proj1 (PreB_interpret_type_spec true false (E 0 "x" Int)
                       (Stmt.mkStore true (IError_make true "B" "top" (B UNTYPED true))))
                    0%Z "x" Int eq_refl) as (r & s' & Hrun & Hr & _ & Hf).
    destruct r.
    + exfalso. discriminate (proj1 Hr eq_refl).
    + exists s'. split; [exact Hrun|exact (proj1 (Hf eq_refl))].
  - apply (proj2 (PreB_interpret_type_spec true false (B 0 true)
                    (Stmt.mkStore true (IError_make true "B" "top" (B UNTYPED true))))).
    intros ty vname cty H. discriminate H.
Defined.

End MoreFacts.

(** * LegacyEnv: one handle per name *)
Section LegacyMoreFacts.
Import LegacyEnv.
Import LegacyEnv.

Lemma legacy_contains_false x e :
  contains x e = false <-> Forall (fun v => name v <> x) (lvars e).
Proof.
  unfold contains, variable_of. rewrite bool_decide_eq_false.
  destruct (list_find (fun v => name v = x) (lvars e)) as [p|] eqn:Hf; simpl.
  - split.
    + intros H. exfalso. apply H. eauto.
    + intros H. exfalso. destruct p as [j w].
      apply list_find_Some in Hf as (Hj & Hw & _).
      rewrite Forall_forall in H. apply (H w); [|exact Hw].
      eapply list_elem_of_lookup_2; eassumption.
  - split.
    + intros _. now apply list_find_None in Hf.
    + intros _ [? H]. discriminate H.
Qed.

Lemma legacy_variable_of_snoc x e v rows :
  contains x e = false -> name v = x ->
  variable_of x (mkVarEnv (lvars e ++ [v]) rows) = Some v.
Proof.
  intros Hc Hv. apply legacy_contains_false in Hc.
  unfold variable_of; cbn [lvars].
  destruct (list_find (fun v0 => name v0 = x) (lvars e ++ [v])) as [[j w]|] eqn:Hf.
  - apply list_find_Some in Hf as (Hj & Hw & _). simpl. f_equal.
    apply lookup_app_Some in Hj as [Hj|[_ Hj]].
    + exfalso. apply list_elem_of_lookup_2 in Hj.
      rewrite Forall_forall in Hc. now apply (Hc w).
    + now apply list_lookup_singleton_Some in Hj as [_ ->].
  - exfalso. apply list_find_None in Hf. rewrite Forall_app in Hf.
    destruct Hf as [_ Hf]. apply Forall_inv in Hf. now apply Hf.
Qed.

Lemma legacy_extends_vars_spec a nm so ap e :
  0 <= a ->
  exists row rows',
    extends_vars a nm so ap e
    = Some (mkAVar a (Z.of_nat (length row)),
            mkVarEnv (lvars e ++ [mkVariable nm so ap [mkAVar a (Z.of_nat (length row))]]) rows')
    /\ (avar2lvar e !! Z.to_nat a = Some row
        \/ (length (avar2lvar e) <= Z.to_nat a)%nat /\ row = []).
Proof.
  intros Ha. unfold extends_vars, extends_abstract_doms.
  rewrite decide_False by lia. cbn [mbind option_bind avar2lvar lvars].
  destruct (decide (Z.to_nat a < length (avar2lvar e))%nat) as [Hlt|Hge].
  - destruct (lookup_lt_is_Some_2 _ _ Hlt) as [row Hrow].
    exists row. eexists. rewrite lookup_app_l by exact Hlt. rewrite Hrow. simpl.
    split; [reflexivity|now left].
  - exists []. eexists. rewrite lookup_app_r by lia.
    rewrite lookup_replicate_2 by lia. simpl.
    split; [reflexivity|]. right. split; [lia|reflexivity].
Qed.

Lemma legacy_inv_empty : legacy_inv empty.
Proof.
  split; [apply NoDup_nil_2|]. intros v Hv. now apply not_elem_of_nil in Hv.
Qed.

Lemma legacy_declare_inv d e e' : legacy_inv e -> declare d e = Some e' -> legacy_inv e'.
Proof.
  intros [Hn Hh]. destruct d as [[[ty nm] so] ap]. unfold declare, interpret_existential.
  destruct (decide (ty = UNTYPED)); [simpl; intros [= <-]; now split|].
  destruct (contains nm e) eqn:Hc; [simpl; intros [= <-]; now split|].
  destruct (extends_vars ty nm so ap e) as [[h e1]|] eqn:Hx; [|discriminate].
  simpl. intros [= <-].
  assert (Hty : 0 <= ty).
  { unfold extends_vars, extends_abstract_doms in Hx.
    destruct (decide (ty < 0)); [discriminate|lia]. }
  destruct (legacy_extends_vars_spec ty nm so ap e Hty) as (row & rows' & Hx' & _).
  rewrite Hx in Hx'. injection Hx' as -> ->. unfold legacy_inv. cbn [lvars]. split.
  - rewrite fmap_app. apply NoDup_app. split; [exact Hn|]. split; [|apply NoDup_singleton].
    intros y Hy Hy'. apply list_elem_of_singleton in Hy'. simpl in Hy'. subst y.
    apply list_elem_of_fmap in Hy as (v & Hname & Hv).
    apply legacy_contains_false in Hc. rewrite Forall_forall in Hc. now apply (Hc v Hv).
  - intros v Hv. apply elem_of_app in Hv as [Hv|Hv]; [now apply Hh|].
    apply list_elem_of_singleton in Hv as ->. eexists. split; [reflexivity|exact Hty].
Qed.

Lemma legacy_reachable_inv e : reachable e -> legacy_inv e.
Proof.
  intros [ds Hds]. revert Hds. generalize empty, legacy_inv_empty.
  induction ds as [|d ds IH]; intros e0 H0; simpl.
  - now intros [= <-].
  - destruct (declare d e0) as [e1|] eqn:Hd; [|discriminate]. simpl.
    apply IH. eapply legacy_declare_inv; eassumption.
Qed.

(** X21: in the legacy environment built by declarations, names are
    distinct and every record has exactly one handle, so the untyped
    occurrence of a declared name always resolves to it, as does the
    occurrence typed by its domain, while any other domain is the
    undeclared-in-domain error. *)
Theorem legacy_single_handle (e : VarEnv) :
  reachable e ->
  NoDup (name <$> lvars e)
  /\ forall v, v ∈ lvars e ->
       exists h,
         avars v = [h] /\ 0 <= aty h
         /\ variable_of (name v) e = Some v
         /\ (forall f, interpret_lv f UNTYPED (name v) e = IResult_ok h)
         /\ (forall f, interpret_lv f (aty h) (name v) e = IResult_ok h)
         /\ (forall f ty, ty <> UNTYPED -> ty <> aty h ->
               interpret_lv f ty (name v) e
               = IResult_error (err_undeclared_in_domain (name v) f)).
Proof.
  intros Hr. destruct (legacy_reachable_inv _ Hr) as [Hn Hh].
  split; [exact Hn|]. intros v Hv. destruct (Hh v Hv) as (h & Hav & Hty).
  exists h. split; [exact Hav|]. split; [exact Hty|].
  assert (Hvar : variable_of (name v) e = Some v).
  { unfold variable_of. apply list_elem_of_lookup in Hv as [j Hj].
    destruct (list_find (fun v0 => name v0 = name v) (lvars e)) as [[i w]|] eqn:Hf.
    - apply list_find_Some in Hf as (Hi & Hw & _). simpl. f_equal.
      assert (i = j) as ->; [|congruence].
      apply (NoDup_lookup _ _ _ (name v) Hn); rewrite list_lookup_fmap.
      + now rewrite Hi; simpl; rewrite Hw.
      + now rewrite Hj.
    - exfalso. apply list_find_None in Hf. rewrite Forall_forall in Hf.
      apply (Hf v); [|reflexivity]. eapply list_elem_of_lookup_2; eassumption. }
  split; [exact Hvar|]. unfold interpret_lv. rewrite Hvar, Hav.
  split; [|split].
  - intros f. rewrite decide_False by (intros Hc; now apply Hc). reflexivity.
  - intros f. rewrite decide_True by (unfold UNTYPED; lia).
    unfold avar_of. rewrite Hav. simpl. now rewrite decide_True.
  - intros f ty Hu Hne. rewrite decide_True by exact Hu.
    unfold avar_of. rewrite Hav. simpl. rewrite decide_False by congruence. reflexivity.
Qed.

Lemma legacy_single_handle_witness :
  exists e,
    declare_all [(2, "x", Bool, EXACT); (0, "y", Int, UNDER); (2, "x", Int, OVER)] empty = Some e
    /\ NoDup (name <$> lvars e)
    /\ num_vars e = 2%nat.
Proof.
  eexists. split; [vm_compute; reflexivity|].
  split; [|reflexivity].
  refine (proj1 (legacy_single_handle _ _)).
  exists [(2, "x", Bool, EXACT); (0, "y", Int, UNDER); (2, "x", Int, OVER)].
  vm_compute. reflexivity.
Defined.

(** X20: in the legacy environment the declaration of an unknown name in
    a domain [d >= 0] succeeds with a handle of [d], adds one record, and
    makes every later declaration of that name, in any domain and with any
    sort, an invalid redeclaration that changes nothing. *)
Theorem legacy_declare_once (f : Formula) (d : AType) (x : string) (so : Sort)
    (ap : Approx) (e : VarEnv) :
  0 <= d -> contains x e = false ->
  exists h e1,
    interpret_existential f d x so ap e = Some (IResult_ok h, e1)
    /\ aty h = d
    /\ num_vars e1 = S (num_vars e)
    /\ variable_of x e1 = Some (mkVariable x so ap [h])
    /\ interpret_lv (LV UNTYPED x) UNTYPED x e1 = IResult_ok h
    /\ forall f' d' so' ap', d' <> UNTYPED ->
         interpret_existential f' d' x so' ap' e1
         = Some (IResult_error (err_redeclaration x f'), e1).
Proof.
  intros Hd Hc.
  destruct (legacy_extends_vars_spec d x so ap e Hd) as (row & rows' & Hx & _).
  eexists _, _. unfold interpret_existential at 1.
  rewrite decide_False by (unfold UNTYPED; lia). rewrite Hc, Hx. simpl.
  split; [reflexivity|]. split; [reflexivity|].
  assert (Hv : variable_of x
                 (mkVarEnv (lvars e ++ [mkVariable x so ap [mkAVar d (Z.of_nat (length row))]])
                    rows')
               = Some (mkVariable x so ap [mkAVar d (Z.of_nat (length row))]))
    by now apply legacy_variable_of_snoc.
  split; [unfold num_vars; cbn [lvars]; rewrite length_app; simpl; lia|].
  split; [exact Hv|].
  split.
  { unfold interpret_lv. rewrite Hv.
    rewrite decide_False by (intros Hn; now apply Hn). reflexivity. }
  intros f' d' so' ap' Hd'. unfold interpret_existential.
  rewrite decide_False by exact Hd'.
  unfold contains. rewrite Hv. rewrite bool_decide_eq_true_2 by eauto. reflexivity.
Qed.

Lemma legacy_declare_once_witness :
  exists h e1,
    interpret_existential (E 1 "x" Bool) 1 "x" Bool EXACT empty = Some (IResult_ok h, e1)
    /\ interpret_existential (E 4 "x" Int) 4 "x" Int OVER e1
       = Some (IResult_error (err_redeclaration "x" (E 4 "x" Int)), e1).
Proof.
  destruct (legacy_declare_once (E 1 "x" Bool) 1 "x" Bool EXACT empty ltac:(lia) eq_refl)
    as (h & e1 & H1 & _ & _ & _ & _ & H2).
  exists h, e1. split; [exact H1|]. apply H2. discriminate.
Defined.

End LegacyMoreFacts.
